(** * The SFTP transfer pipeline ([main.go], [main_test.go])

    [PipelineCfg.TransferFiles] starts a job feeder, [cfg.SFTPReaders] fetch
    goroutines, a goroutine that closes the results channel once the fetch
    goroutines are done, and [cfg.Workers] processing goroutines; it waits for
    the processing goroutines and returns the two [int32] counters.

    The program is embedded as an interleaving transition system: one
    transition is one operation on shared state (a channel operation, a
    [sync.WaitGroup] operation, an atomic add, a call of the SFTP client or of
    the processing function), and a schedule, the list of goroutines that move
    in turn, plays the Go scheduler.  [exec] executes one transition, [run] a
    whole schedule, and [TransferFiles] is what the call returns under a
    schedule. *)

From Stdlib Require Import ZArith Lia Strings.Byte.
From stdpp Require Import base tactics option list list_numbers strings gmap.

Local Open Scope Z_scope.

(** ** Data model *)

(** [type FileJob struct { RemotePath string; ID string }] *)
Module FileJob.
Record t := mk { RemotePath : string; ID : string }.
End FileJob.

(** [type FileResult struct { ID string; Data []byte }] *)
Module FileResult.
Record t := mk { ID : string; Data : list byte }.
End FileResult.

(** [type PipelineCfg struct { SFTPReaders int; Workers int; BufferSize int }] *)
Record PipelineCfg := { SFTPReaders : Z; Workers : Z; BufferSize : Z }.

Definition DefaultCfg : PipelineCfg :=
  {| SFTPReaders := 80; Workers := 10; BufferSize := 10 |}.

(** A Go [error]: [None] is [nil]. *)
Definition error := option string.

(** [int32] arithmetic: the counters are [int32] and [atomic.AddInt32] wraps
    around in two's complement. *)
Definition wrap32 (z : Z) : Z := (z + 2 ^ 31) mod 2 ^ 32 - 2 ^ 31.
Definition AddInt32 (addr delta : Z) : Z := wrap32 (addr + delta).

(** ** Channels

    A channel is its buffer and its closed flag; the capacity is fixed by
    [make] and passed to [chan_send]. *)
Record Chan (A : Type) := { buf : list A; closed : bool }.
Arguments buf {A} _.
Arguments closed {A} _.

Definition make_chan {A} : Chan A := {| buf := []; closed := false |}.

(** The outcome of one attempt at a channel operation. *)
Inductive Attempt (R : Type) :=
| Blocks              (* the goroutine stays where it is *)
| Panics              (* run-time panic *)
| Does (r : R).
Arguments Blocks {R}.
Arguments Panics {R}.
Arguments Does {R} _.

(** [c <- x] on a channel of capacity [cap]: panics when closed, blocks when
    the buffer is full. *)
Definition chan_send {A} (cap : nat) (x : A) (c : Chan A) : Attempt (Chan A) :=
  if closed c then Panics
  else if (length (buf c) <? cap)%nat
       then Does {| buf := buf c ++ [x]; closed := false |}
       else Blocks.

(** One iteration of [for x := range c]: the head of the buffer, or the end of
    the loop ([None]) once the channel is closed and drained. *)
Definition chan_range {A} (c : Chan A) : Attempt (option A * Chan A) :=
  match buf c with
  | x :: q => Does (Some x, {| buf := q; closed := closed c |})
  | [] => if closed c then Does (None, c) else Blocks
  end.

(** [close(c)]: panics when already closed. *)
Definition chan_close {A} (c : Chan A) : Attempt (Chan A) :=
  if closed c then Panics else Does {| buf := buf c; closed := true |}.

(** ** Goroutines *)

(** Program points of the body of [TransferFiles] (line numbers of main.go). *)
Inductive Main :=
| M_make                        (* 41-43: make the two channels *)
| M_go_feeder                   (* 45: go func() { feed jobsChan } *)
| M_readers (i : Z)             (* 53-54: i < cfg.SFTPReaders; readWg.Add(1) *)
| M_reader_go (i : Z)           (* 55: go func() { fetch } ; i++ *)
| M_go_sentinel                 (* 74: go func() { readWg.Wait(); close } *)
| M_workers (i : Z)             (* 80-81: i < cfg.Workers; processWg.Add(1) *)
| M_worker_go (i : Z)           (* 82: go func() { process } ; i++ *)
| M_wait                        (* 94: processWg.Wait() *)
| M_return                      (* 96-98: Printf; return transferred, failed *)
| M_returned (transferred failed : Z).

(** The feeder, lines 45-50. *)
Inductive Feeder :=
| F_none                               (* not started *)
| F_range (rest : list FileJob.t)      (* 46-49: jobs still to send, then close *)
| F_exit.

(** A fetch goroutine, lines 55-71; [File] is the type of open remote files. *)
Inductive Reader (File : Type) :=
| R_range                                       (* 57: for job := range jobsChan *)
| R_open (job : FileJob.t)                      (* 58: sftpClient.Open *)
| R_fail                                        (* 60, 66: AddInt32(&failed, 1) *)
| R_read (job : FileJob.t) (f : File)           (* 63: io.ReadAll(f) *)
| R_close (job : FileJob.t) (f : File) (data : list byte) (err : error)
                                                (* 64-65: f.Close(); err != nil *)
| R_send (r : FileResult.t)                     (* 69: resultsChan <- FileResult *)
| R_done                                        (* 56: deferred readWg.Done() *)
| R_exit.
Arguments R_range {File}.
Arguments R_open {File} _.
Arguments R_fail {File}.
Arguments R_read {File} _ _.
Arguments R_close {File} _ _ _ _.
Arguments R_send {File} _.
Arguments R_done {File}.
Arguments R_exit {File}.

(** The goroutine of lines 74-77. *)
Inductive Sentinel :=
| S_none | S_wait | S_close | S_exit.

(** A processing goroutine, lines 82-91. *)
Inductive Worker :=
| W_range                        (* 84: for result := range resultsChan *)
| W_call (r : FileResult.t)      (* 85: processFunc(result) *)
| W_fail                         (* 86: AddInt32(&failed, 1) *)
| W_ok                           (* 88: AddInt32(&transferred, 1) *)
| W_done                         (* 83: deferred processWg.Done() *)
| W_exit.

(** Which goroutine the scheduler runs next.  [T_handoff i k] is the direct
    hand-over of a value on [resultsChan] from fetch goroutine [i], blocked in
    its send, to processing goroutine [k], blocked in its receive: the only
    way a value crosses an unbuffered channel. *)
Inductive Tid :=
| T_main | T_feeder | T_reader (i : nat) | T_sentinel | T_worker (k : nat)
| T_handoff (i k : nat).

Inductive Counter := c_transferred | c_failed.
Inductive Channel := ch_jobs | ch_results.

(** The record of a run, newest first: the calls of the client and of the
    processing function with their results, the increments of the counters
    and the closing of the channels. *)
Inductive Event (File : Type) :=
| EvOpen (job : FileJob.t) (res : File + string)
| EvReadAll (job : FileJob.t) (f : File) (data : list byte) (err : error)
| EvFileClose (f : File)
| EvProcess (r : FileResult.t) (err : error)
| EvAdd (c : Counter)
| EvClose (ch : Channel).
Arguments EvOpen {File} _ _.
Arguments EvReadAll {File} _ _ _ _.
Arguments EvFileClose {File} _.
Arguments EvProcess {File} _ _.
Arguments EvAdd {File} _.
Arguments EvClose {File} _.

(** ** State *)

Record State (World File : Type) := {
  main : Main;
  feeder : Feeder;
  readers : list (Reader File);
  sentinel : Sentinel;
  workers : list Worker;
  jobsChan : Chan FileJob.t;
  resultsChan : Chan FileResult.t;
  readWg : Z;                    (* counter of the WaitGroup readWg *)
  processWg : Z;
  transferred : Z;               (* int32 *)
  failed : Z;                    (* int32 *)
  world : World;                 (* the remote server, the disk, ... *)
  hist : list (Event File);      (* record of the run; no transition reads it *)
  panicked : bool
}.
Arguments main {World File} _.
Arguments feeder {World File} _.
Arguments readers {World File} _.
Arguments sentinel {World File} _.
Arguments workers {World File} _.
Arguments jobsChan {World File} _.
Arguments resultsChan {World File} _.
Arguments readWg {World File} _.
Arguments processWg {World File} _.
Arguments transferred {World File} _.
Arguments failed {World File} _.
Arguments world {World File} _.
Arguments hist {World File} _.
Arguments panicked {World File} _.

Section Setters.
Context {World File : Type}.
Local Abbreviation State := (State World File).

Definition set_main x (s : State) : State :=
  {| main := x; feeder := feeder s; readers := readers s;
     sentinel := sentinel s; workers := workers s; jobsChan := jobsChan s;
     resultsChan := resultsChan s; readWg := readWg s;
     processWg := processWg s; transferred := transferred s;
     failed := failed s; world := world s; hist := hist s;
     panicked := panicked s |}.
Definition set_feeder x (s : State) : State :=
  {| main := main s; feeder := x; readers := readers s;
     sentinel := sentinel s; workers := workers s; jobsChan := jobsChan s;
     resultsChan := resultsChan s; readWg := readWg s;
     processWg := processWg s; transferred := transferred s;
     failed := failed s; world := world s; hist := hist s;
     panicked := panicked s |}.
Definition set_readers x (s : State) : State :=
  {| main := main s; feeder := feeder s; readers := x;
     sentinel := sentinel s; workers := workers s; jobsChan := jobsChan s;
     resultsChan := resultsChan s; readWg := readWg s;
     processWg := processWg s; transferred := transferred s;
     failed := failed s; world := world s; hist := hist s;
     panicked := panicked s |}.
Definition set_sentinel x (s : State) : State :=
  {| main := main s; feeder := feeder s; readers := readers s; sentinel := x;
     workers := workers s; jobsChan := jobsChan s;
     resultsChan := resultsChan s; readWg := readWg s;
     processWg := processWg s; transferred := transferred s;
     failed := failed s; world := world s; hist := hist s;
     panicked := panicked s |}.
Definition set_workers x (s : State) : State :=
  {| main := main s; feeder := feeder s; readers := readers s;
     sentinel := sentinel s; workers := x; jobsChan := jobsChan s;
     resultsChan := resultsChan s; readWg := readWg s;
     processWg := processWg s; transferred := transferred s;
     failed := failed s; world := world s; hist := hist s;
     panicked := panicked s |}.
Definition set_jobsChan x (s : State) : State :=
  {| main := main s; feeder := feeder s; readers := readers s;
     sentinel := sentinel s; workers := workers s; jobsChan := x;
     resultsChan := resultsChan s; readWg := readWg s;
     processWg := processWg s; transferred := transferred s;
     failed := failed s; world := world s; hist := hist s;
     panicked := panicked s |}.
Definition set_resultsChan x (s : State) : State :=
  {| main := main s; feeder := feeder s; readers := readers s;
     sentinel := sentinel s; workers := workers s; jobsChan := jobsChan s;
     resultsChan := x; readWg := readWg s; processWg := processWg s;
     transferred := transferred s; failed := failed s; world := world s;
     hist := hist s; panicked := panicked s |}.
Definition set_readWg x (s : State) : State :=
  {| main := main s; feeder := feeder s; readers := readers s;
     sentinel := sentinel s; workers := workers s; jobsChan := jobsChan s;
     resultsChan := resultsChan s; readWg := x; processWg := processWg s;
     transferred := transferred s; failed := failed s; world := world s;
     hist := hist s; panicked := panicked s |}.
Definition set_processWg x (s : State) : State :=
  {| main := main s; feeder := feeder s; readers := readers s;
     sentinel := sentinel s; workers := workers s; jobsChan := jobsChan s;
     resultsChan := resultsChan s; readWg := readWg s; processWg := x;
     transferred := transferred s; failed := failed s; world := world s;
     hist := hist s; panicked := panicked s |}.
Definition set_transferred x (s : State) : State :=
  {| main := main s; feeder := feeder s; readers := readers s;
     sentinel := sentinel s; workers := workers s; jobsChan := jobsChan s;
     resultsChan := resultsChan s; readWg := readWg s;
     processWg := processWg s; transferred := x; failed := failed s;
     world := world s; hist := hist s; panicked := panicked s |}.
Definition set_failed x (s : State) : State :=
  {| main := main s; feeder := feeder s; readers := readers s;
     sentinel := sentinel s; workers := workers s; jobsChan := jobsChan s;
     resultsChan := resultsChan s; readWg := readWg s;
     processWg := processWg s; transferred := transferred s; failed := x;
     world := world s; hist := hist s; panicked := panicked s |}.
Definition set_world x (s : State) : State :=
  {| main := main s; feeder := feeder s; readers := readers s;
     sentinel := sentinel s; workers := workers s; jobsChan := jobsChan s;
     resultsChan := resultsChan s; readWg := readWg s;
     processWg := processWg s; transferred := transferred s;
     failed := failed s; world := x; hist := hist s;
     panicked := panicked s |}.
Definition set_hist x (s : State) : State :=
  {| main := main s; feeder := feeder s; readers := readers s;
     sentinel := sentinel s; workers := workers s; jobsChan := jobsChan s;
     resultsChan := resultsChan s; readWg := readWg s;
     processWg := processWg s; transferred := transferred s;
     failed := failed s; world := world s; hist := x;
     panicked := panicked s |}.
Definition set_panicked x (s : State) : State :=
  {| main := main s; feeder := feeder s; readers := readers s;
     sentinel := sentinel s; workers := workers s; jobsChan := jobsChan s;
     resultsChan := resultsChan s; readWg := readWg s;
     processWg := processWg s; transferred := transferred s;
     failed := failed s; world := world s; hist := hist s; panicked := x |}.

Definition panic (s : State) : State := set_panicked true s.
Definition log (e : Event File) (s : State) : State := set_hist (e :: hist s) s.
Definition reader_goto (i : nat) (r : Reader File) (s : State) : State :=
  set_readers (<[i := r]> (readers s)) s.
Definition worker_goto (k : nat) (w : Worker) (s : State) : State :=
  set_workers (<[k := w]> (workers s)) s.
End Setters.

(** ** The caller's capabilities

    The SFTP client with the files it opens, and the processing function;
    each call may read and change the outside world.  [Open] is
    [sftpClient.Open] (or the [Open] of the interface that [TransferFilesMock]
    takes), [ReadAll] is [io.ReadAll] on the opened file, [FileClose] its
    [Close], whose result the pipeline drops, and [processFunc] is the
    [ProcessFunc] ([func(result FileResult) error]). *)
Definition ProcessFunc (World : Type) : Type :=
  FileResult.t → World → error * World.

Class Env (World File : Type) := {
  Open : string → World → (File + string) * World;
  ReadAll : File → World → (list byte * error) * World;
  FileClose : File → World → World;
  processFunc : ProcessFunc World
}.

(** ** The transitions *)

Section Pipeline.
Context {World File : Type} {E : Env World File}.
Local Abbreviation State := (State World File).
Variable cfg : PipelineCfg.
Variable jobs : list FileJob.t.

(** The state in which the body of [TransferFiles] is entered. *)
Definition init (w : World) : State :=
  {| main := M_make; feeder := F_none; readers := []; sentinel := S_none;
     workers := []; jobsChan := make_chan; resultsChan := make_chan;
     readWg := 0; processWg := 0; transferred := 0; failed := 0;
     world := w; hist := []; panicked := false |}.

(** [make(chan FileJob, len(jobs))] and [make(chan FileResult, cfg.BufferSize)] *)
Definition jobsCap : nat := length jobs.
Definition resultsCap : nat := Z.to_nat (BufferSize cfg).

(** The body of [TransferFiles] in main.go.  [make] panics on a negative
    size; [wg.Wait()] blocks until the counter is zero. *)
Definition main_step (s : State) : option State :=
  match main s with
  | M_make =>
      if BufferSize cfg <? 0 then Some (panic s)
      else Some (set_main M_go_feeder s)
  | M_go_feeder =>
      Some (set_main (M_readers 0) (set_feeder (F_range jobs) s))
  | M_readers i =>
      if i <? SFTPReaders cfg
      then Some (set_main (M_reader_go i) (set_readWg (readWg s + 1) s))
      else Some (set_main M_go_sentinel s)
  | M_reader_go i =>
      Some (set_main (M_readers (i + 1)) (set_readers (readers s ++ [R_range]) s))
  | M_go_sentinel =>
      Some (set_main (M_workers 0) (set_sentinel S_wait s))
  | M_workers i =>
      if i <? Workers cfg
      then Some (set_main (M_worker_go i) (set_processWg (processWg s + 1) s))
      else Some (set_main M_wait s)
  | M_worker_go i =>
      Some (set_main (M_workers (i + 1)) (set_workers (workers s ++ [W_range]) s))
  | M_wait =>
      if processWg s =? 0 then Some (set_main M_return s) else None
  | M_return =>
      Some (set_main (M_returned (transferred s) (failed s)) s)
  | M_returned _ _ => None
  end.

(** The body of [TransferFilesMock] in main_test.go: the same statements,
    with [wg.Go(f)] where main.go has [wg.Add(1); go func() { defer
    wg.Done(); ... }()].  [wg.Go] adds one and starts the goroutine, which
    calls [Done] when [f] returns. *)
Definition main_step_mock (s : State) : option State :=
  match main s with
  | M_readers i =>
      if i <? SFTPReaders cfg
      then Some (set_main (M_readers (i + 1))
                   (set_readers (readers s ++ [R_range])
                      (set_readWg (readWg s + 1) s)))
      else Some (set_main M_go_sentinel s)
  | M_workers i =>
      if i <? Workers cfg
      then Some (set_main (M_workers (i + 1))
                   (set_workers (workers s ++ [W_range])
                      (set_processWg (processWg s + 1) s)))
      else Some (set_main M_wait s)
  | M_reader_go _ | M_worker_go _ => None
  | _ => main_step s
  end.

(** Lines 45-50. *)
Definition feeder_step (s : State) : option State :=
  match feeder s with
  | F_range (job :: rest) =>
      match chan_send jobsCap job (jobsChan s) with
      | Does c => Some (set_feeder (F_range rest) (set_jobsChan c s))
      | Panics => Some (panic s)
      | Blocks => None
      end
  | F_range [] =>
      match chan_close (jobsChan s) with
      | Does c => Some (log (EvClose ch_jobs) (set_feeder F_exit (set_jobsChan c s)))
      | _ => Some (panic s)
      end
  | F_none | F_exit => None
  end.

(** [wg.Done()]: panics when the counter would become negative. *)
Definition wg_done (n : Z) : Attempt Z :=
  if n - 1 <? 0 then Panics else Does (n - 1).

(** Lines 55-71, fetch goroutine number [i]. *)
Definition reader_step (i : nat) (s : State) : option State :=
  r ← readers s !! i;
  match r with
  | R_range =>
      match chan_range (jobsChan s) with
      | Does (Some job, c) => Some (reader_goto i (R_open job) (set_jobsChan c s))
      | Does (None, _) => Some (reader_goto i R_done s)
      | _ => None
      end
  | R_open job =>
      let '(res, w) := Open (FileJob.RemotePath job) (world s) in
      let s := log (EvOpen job res) (set_world w s) in
      match res with
      | inl f => Some (reader_goto i (R_read job f) s)
      | inr _ => Some (reader_goto i R_fail s)
      end
  | R_fail =>
      Some (reader_goto i R_range
              (log (EvAdd c_failed) (set_failed (AddInt32 (failed s) 1) s)))
  | R_read job f =>
      let '(data, err, w) := ReadAll f (world s) in
      Some (reader_goto i (R_close job f data err)
              (log (EvReadAll job f data err) (set_world w s)))
  | R_close job f data err =>
      let s := log (EvFileClose f) (set_world (FileClose f (world s)) s) in
      match err with
      | Some _ => Some (reader_goto i R_fail s)
      | None =>
          Some (reader_goto i
                  (R_send {| FileResult.ID := FileJob.ID job;
                             FileResult.Data := data |}) s)
      end
  | R_send r =>
      match chan_send resultsCap r (resultsChan s) with
      | Does c => Some (reader_goto i R_range (set_resultsChan c s))
      | Panics => Some (panic s)
      | Blocks => None
      end
  | R_done =>
      match wg_done (readWg s) with
      | Does n => Some (reader_goto i R_exit (set_readWg n s))
      | _ => Some (panic s)
      end
  | R_exit => None
  end.

(** Lines 74-77. *)
Definition sentinel_step (s : State) : option State :=
  match sentinel s with
  | S_wait => if readWg s =? 0 then Some (set_sentinel S_close s) else None
  | S_close =>
      match chan_close (resultsChan s) with
      | Does c =>
          Some (log (EvClose ch_results) (set_sentinel S_exit (set_resultsChan c s)))
      | _ => Some (panic s)
      end
  | S_none | S_exit => None
  end.

(** Lines 82-91, processing goroutine number [k]. *)
Definition worker_step (k : nat) (s : State) : option State :=
  w ← workers s !! k;
  match w with
  | W_range =>
      match chan_range (resultsChan s) with
      | Does (Some r, c) => Some (worker_goto k (W_call r) (set_resultsChan c s))
      | Does (None, _) => Some (worker_goto k W_done s)
      | _ => None
      end
  | W_call r =>
      let '(err, w) := processFunc r (world s) in
      let s := log (EvProcess r err) (set_world w s) in
      match err with
      | Some _ => Some (worker_goto k W_fail s)
      | None => Some (worker_goto k W_ok s)
      end
  | W_fail =>
      Some (worker_goto k W_range
              (log (EvAdd c_failed) (set_failed (AddInt32 (failed s) 1) s)))
  | W_ok =>
      Some (worker_goto k W_range
              (log (EvAdd c_transferred)
                 (set_transferred (AddInt32 (transferred s) 1) s)))
  | W_done =>
      match wg_done (processWg s) with
      | Does n => Some (worker_goto k W_exit (set_processWg n s))
      | _ => Some (panic s)
      end
  | W_exit => None
  end.

(** Fetch goroutine [i] is blocked sending [r] and processing goroutine [k]
    is blocked receiving, on the open and empty [resultsChan]: the value is
    handed over directly. *)
Definition handoff_step (i k : nat) (s : State) : option State :=
  match readers s !! i, workers s !! k, resultsChan s with
  | Some (R_send r), Some W_range, {| buf := []; closed := false |} =>
      Some (worker_goto k (W_call r) (reader_goto i R_range s))
  | _, _, _ => None
  end.

(** One transition of the goroutine chosen by the scheduler; [None] when the
    goroutine cannot move (blocked, finished or not started).  After a
    panic nothing moves. *)
Definition exec_with (mstep : State → option State) (t : Tid) (s : State)
  : option State :=
  if panicked s then None
  else match t with
       | T_main => mstep s
       | T_feeder => feeder_step s
       | T_reader i => reader_step i s
       | T_sentinel => sentinel_step s
       | T_worker k => worker_step k s
       | T_handoff i k => handoff_step i k s
       end.

Definition exec : Tid → State → option State := exec_with main_step.
Definition exec_mock : Tid → State → option State := exec_with main_step_mock.

(** A schedule, executed from a state; [None] when it asks a goroutine to
    move that cannot. *)
Fixpoint run_with (step : Tid → State → option State)
    (sched : list Tid) (s : State) : option State :=
  match sched with
  | [] => Some s
  | t :: sched => s' ← step t s; run_with step sched s'
  end.

Definition run := run_with exec.
Definition run_mock := run_with exec_mock.

(** The values returned to the caller, once the body has returned. *)
Definition returned (s : State) : option (Z * Z) :=
  match main s with
  | M_returned transferred failed => Some (transferred, failed)
  | _ => None
  end.

(** [cfg.TransferFiles(sftpClient, jobs, processFunc)] under a schedule:
    the pair it returns, if the schedule can be executed and the call has
    returned at its end. *)
Definition TransferFiles (sched : list Tid) (w : World) : option (Z * Z) :=
  s ← run sched (init w); returned s.

(** [cfg.TransferFilesMock(client, jobs, processFunc)] under a schedule. *)
Definition TransferFilesMock (sched : list Tid) (w : World) : option (Z * Z) :=
  s ← run_mock sched (init w); returned s.

(** ** What a run did, read off its record *)

(** How often [atomic.AddInt32(&c, 1)] was executed. *)
Definition adds (c : Counter) (h : list (Event File)) : nat :=
  sum_list_with
    (λ e, match e, c with
          | EvAdd c_transferred, c_transferred | EvAdd c_failed, c_failed => 1
          | _, _ => 0
          end)%nat h.

(** How often a channel was closed. *)
Definition closes (ch : Channel) (h : list (Event File)) : nat :=
  sum_list_with
    (λ e, match e, ch with
          | EvClose ch_jobs, ch_jobs | EvClose ch_results, ch_results => 1
          | _, _ => 0
          end)%nat h.

(** The jobs whose locator was passed to [Open], and those of them that were
    opened, with the file. *)
Definition opened (h : list (Event File)) : list FileJob.t :=
  h ≫= λ e, match e with EvOpen job _ => [job] | _ => [] end.
Definition opened_files (h : list (Event File)) : list (FileJob.t * File) :=
  h ≫= λ e, match e with EvOpen job (inl f) => [(job, f)] | _ => [] end.

(** The files passed to [io.ReadAll], and the bytes of those read without
    error. *)
Definition read_files (h : list (Event File)) : list (FileJob.t * File) :=
  h ≫= λ e, match e with EvReadAll job f _ _ => [(job, f)] | _ => [] end.
Definition fetched (h : list (Event File)) : list (FileJob.t * list byte) :=
  h ≫= λ e, match e with EvReadAll job _ data None => [(job, data)] | _ => [] end.

(** Line 69: the result built from a job and the bytes read for it. *)
Definition result_of (jd : FileJob.t * list byte) : FileResult.t :=
  {| FileResult.ID := FileJob.ID jd.1; FileResult.Data := jd.2 |}.

(** The results passed to [processFunc]. *)
Definition processed (h : list (Event File)) : list FileResult.t :=
  h ≫= λ e, match e with EvProcess r _ => [r] | _ => [] end.

(** ** Where the jobs are *)

(** The jobs the feeder has not sent yet. *)
Definition unsent (f : Feeder) : list FileJob.t :=
  match f with F_none => jobs | F_range rest => rest | F_exit => [] end.

(** A goroutine holds an item between taking it from its channel and passing
    it on or counting it. *)
Definition reader_holds (r : Reader File) : nat :=
  match r with
  | R_open _ | R_fail | R_read _ _ | R_close _ _ _ _ | R_send _ => 1
  | R_range | R_done | R_exit => 0
  end.
Definition worker_holds (w : Worker) : nat :=
  match w with
  | W_call _ | W_fail | W_ok => 1
  | W_range | W_done | W_exit => 0
  end.

(** The items still on their way to a counter. *)
Definition in_flight (s : State) : nat :=
  (length (unsent (feeder s)) + length (buf (jobsChan s))
   + sum_list_with reader_holds (readers s)
   + length (buf (resultsChan s))
   + sum_list_with worker_holds (workers s))%nat.

(** Every job is in flight or has been counted once; the counters are the
    numbers of increments, as [int32]. *)
Definition accounted (s : State) : Prop :=
  (in_flight s + adds c_transferred (hist s) + adds c_failed (hist s))%nat
    = length jobs
  ∧ transferred s = wrap32 (Z.of_nat (adds c_transferred (hist s)))
  ∧ failed s = wrap32 (Z.of_nat (adds c_failed (hist s))).

(** The same, item by item.  What each goroutine holds: *)
Definition reader_job (r : Reader File) : list FileJob.t :=
  match r with R_open job => [job] | _ => [] end.
Definition reader_file (r : Reader File) : list (FileJob.t * File) :=
  match r with R_read job f => [(job, f)] | _ => [] end.
Definition reader_result (r : Reader File) : list FileResult.t :=
  match r with
  | R_close job _ data None => [result_of (job, data)]
  | R_send r => [r]
  | _ => []
  end.
Definition worker_result (w : Worker) : list FileResult.t :=
  match w with W_call r => [r] | _ => [] end.

(** Each input job is waiting or was passed to [Open] once; each opened file
    is held or was read once; each result of a successful read is on its way
    or was passed to [processFunc] once. *)
Definition traced (s : State) : Prop :=
  jobs ≡ₚ unsent (feeder s) ++ buf (jobsChan s)
            ++ (readers s ≫= reader_job) ++ opened (hist s)
  ∧ opened_files (hist s) ≡ₚ (readers s ≫= reader_file) ++ read_files (hist s)
  ∧ result_of <$> fetched (hist s)
      ≡ₚ (readers s ≫= reader_result) ++ buf (resultsChan s)
           ++ (workers s ≫= worker_result) ++ processed (hist s).

(** The three ways a job ends, counted in the record: its fetch fails (in
    [Open] or in [io.ReadAll]), [processFunc] rejects its result, or
    [processFunc] accepts it. *)
Definition open_failures (h : list (Event File)) : nat :=
  sum_list_with (λ e, match e with EvOpen _ (inr _) => 1 | _ => 0 end)%nat h.
Definition read_failures (h : list (Event File)) : nat :=
  sum_list_with
    (λ e, match e with EvReadAll _ _ _ (Some _) => 1 | _ => 0 end)%nat h.
Definition rejections (h : list (Event File)) : nat :=
  sum_list_with (λ e, match e with EvProcess _ (Some _) => 1 | _ => 0 end)%nat h.
Definition acceptances (h : list (Event File)) : nat :=
  sum_list_with (λ e, match e with EvProcess _ None => 1 | _ => 0 end)%nat h.

(** A goroutine on its way to an increment of [failed], or of
    [transferred]. *)
Definition reader_failing (r : Reader File) : nat :=
  match r with R_fail | R_close _ _ _ (Some _) => 1 | _ => 0 end.
Definition worker_failing (w : Worker) : nat :=
  match w with W_fail => 1 | _ => 0 end.
Definition worker_succeeding (w : Worker) : nat :=
  match w with W_ok => 1 | _ => 0 end.

(** [transferred] is incremented once for every acceptance, and [failed]
    once for every failed fetch and every rejection. *)
Definition tallied (s : State) : Prop :=
  (adds c_transferred (hist s)
   + sum_list_with worker_succeeding (workers s))%nat
  = acceptances (hist s)
  ∧ (adds c_failed (hist s)
     + sum_list_with reader_failing (readers s)
     + sum_list_with worker_failing (workers s))%nat
    = (open_failures (hist s) + read_failures (hist s)
       + rejections (hist s))%nat.

(** ** The shape of the reachable states *)

(** A goroutine counts in its [WaitGroup] until it has called [Done]. *)
Definition reader_live (r : Reader File) : nat :=
  match r with R_exit => 0 | _ => 1 end.
Definition worker_live (w : Worker) : nat :=
  match w with W_exit => 0 | _ => 1 end.

(** A goroutine that has left its [range] loop. *)
Definition reader_past (r : Reader File) : Prop := r = R_done ∨ r = R_exit.
Definition worker_past (w : Worker) : Prop := w = W_done ∨ w = W_exit.

(** How many goroutines of each pool the body has started at a program
    point, and whether an [Add(1)] is ahead of its [go]. *)
Definition started_readers (m : Main) : Z :=
  match m with
  | M_make | M_go_feeder => 0
  | M_readers i | M_reader_go i => i
  | _ => Z.max 0 (SFTPReaders cfg)
  end.
Definition started_workers (m : Main) : Z :=
  match m with
  | M_workers i | M_worker_go i => i
  | M_wait | M_return | M_returned _ _ => Z.max 0 (Workers cfg)
  | _ => 0
  end.
Definition pending_reader (m : Main) : Z :=
  match m with M_reader_go _ => 1 | _ => 0 end.
Definition pending_worker (m : Main) : Z :=
  match m with M_worker_go _ => 1 | _ => 0 end.
Definition loop_bounds (m : Main) : Prop :=
  match m with
  | M_readers i => 0 ≤ i ≤ Z.max 0 (SFTPReaders cfg)
  | M_reader_go i => 0 ≤ i < SFTPReaders cfg
  | M_workers i => 0 ≤ i ≤ Z.max 0 (Workers cfg)
  | M_worker_go i => 0 ≤ i < Workers cfg
  | _ => True
  end.
Definition feeder_started (m : Main) : bool :=
  match m with M_make | M_go_feeder => false | _ => true end.
Definition sentinel_started (m : Main) : bool :=
  match m with
  | M_make | M_go_feeder | M_readers _ | M_reader_go _ | M_go_sentinel => false
  | _ => true
  end.
Definition main_past (m : Main) : Prop :=
  m = M_return ∨ ∃ t f, m = M_returned t f.

Definition drained {A} (c : Chan A) : Prop := c = {| buf := []; closed := true |}.

Record wf (s : State) : Prop := {
  wf_panic : panicked s = true → BufferSize cfg < 0;
  wf_bounds : loop_bounds (main s);
  wf_readers : Z.of_nat (length (readers s)) = started_readers (main s);
  wf_workers : Z.of_nat (length (workers s)) = started_workers (main s);
  wf_readWg :
    readWg s = Z.of_nat (sum_list_with reader_live (readers s))
               + pending_reader (main s);
  wf_processWg :
    processWg s = Z.of_nat (sum_list_with worker_live (workers s))
                  + pending_worker (main s);
  wf_feeder : feeder s = F_none ↔ feeder_started (main s) = false;
  wf_sentinel : sentinel s = S_none ↔ sentinel_started (main s) = false;
  wf_jobsChan :
    match feeder s with
    | F_none => jobsChan s = make_chan
    | F_range rest =>
        closed (jobsChan s) = false
        ∧ (length (buf (jobsChan s)) + length rest ≤ length jobs)%nat
    | F_exit => closed (jobsChan s) = true
    end;
  wf_resultsChan :
    closed (resultsChan s) = match sentinel s with S_exit => true | _ => false end;
  wf_closes :
    closes ch_results (hist s) = if closed (resultsChan s) then 1%nat else 0%nat;
  wf_sentinel_past :
    sentinel s = S_close ∨ sentinel s = S_exit →
    sum_list_with reader_live (readers s) = 0%nat;
  wf_reader_past :
    Forall (λ r, reader_past r → drained (jobsChan s)) (readers s);
  wf_worker_past :
    Forall (λ w, worker_past w → drained (resultsChan s)) (workers s);
  wf_main_past :
    main_past (main s) → sum_list_with worker_live (workers s) = 0%nat
}.

(** Every goroutine has been started and has finished, and both channels are
    closed and empty. *)
Definition quiescent (s : State) : Prop :=
  feeder s = F_exit ∧ sentinel s = S_exit
  ∧ Forall (λ r, r = R_exit) (readers s)
  ∧ Forall (λ w, w = W_exit) (workers s)
  ∧ drained (jobsChan s) ∧ drained (resultsChan s).

(** The values the call has returned are the values of the counters. *)
Definition settled (s : State) : Prop :=
  ∀ t f, main s = M_returned t f → transferred s = t ∧ failed s = f.

(** ** Special runs *)


(** The client opens and reads the file of every job. *)
Definition fetch_succeeds : Prop :=
  ∀ job w, job ∈ jobs →
    ∃ f w', Open (FileJob.RemotePath job) w = (inl f, w')
            ∧ ∀ w1, (ReadAll f w1).1.2 = None.


(** No fetch has failed, and every increment so far was made for a call of
    [processFunc]. *)
Definition worker_counts (w : Worker) : nat :=
  match w with W_fail | W_ok => 1 | _ => 0 end.
Definition all_fetched (s : State) : Prop :=
  Forall (λ r, match r with
               | R_fail => False
               | R_read _ f => ∀ w, (ReadAll f w).1.2 = None
               | R_close _ _ _ err => err = None
               | _ => True
               end) (readers s)
  ∧ length (processed (hist s))
    = (adds c_transferred (hist s) + adds c_failed (hist s)
       + sum_list_with worker_counts (workers s))%nat.



(** ** Capabilities whose answers do not depend on the outside world *)

Definition stateless : Prop :=
  (∀ path w w', (Open path w).1 = (Open path w').1)
  ∧ (∀ f w w', (ReadAll f w).1 = (ReadAll f w').1)
  ∧ (∀ r w w', (processFunc r w).1 = (processFunc r w').1).

(** Whether an item will be counted in [transferred], judged by the answers
    in the world [w0]. *)
Definition accepts (w0 : World) (r : FileResult.t) : bool :=
  match (processFunc r w0).1 with None => true | Some _ => false end.
Definition data_ok (w0 : World) (job : FileJob.t) (data : list byte)
    (err : error) : bool :=
  match err with
  | None => accepts w0 (result_of (job, data))
  | Some _ => false
  end.
Definition file_ok (w0 : World) (job : FileJob.t) (f : File) : bool :=
  data_ok w0 job (ReadAll f w0).1.1 (ReadAll f w0).1.2.
Definition job_ok (w0 : World) (job : FileJob.t) : bool :=
  match (Open (FileJob.RemotePath job) w0).1 with
  | inl f => file_ok w0 job f
  | inr _ => false
  end.

Definition count {A} (p : A → bool) (l : list A) : nat :=
  sum_list_with (λ x, Nat.b2n (p x)) l.

Definition reader_expects (w0 : World) (r : Reader File) : nat :=
  match r with
  | R_open job => Nat.b2n (job_ok w0 job)
  | R_read job f => Nat.b2n (file_ok w0 job f)
  | R_close job _ data err => Nat.b2n (data_ok w0 job data err)
  | R_send r => Nat.b2n (accepts w0 r)
  | R_range | R_fail | R_done | R_exit => 0
  end.
Definition worker_expects (w0 : World) (w : Worker) : nat :=
  match w with
  | W_call r => Nat.b2n (accepts w0 r)
  | W_ok => 1
  | W_range | W_fail | W_done | W_exit => 0
  end.

(** The increments of [transferred] made and still to come. *)
Definition expected (w0 : World) (s : State) : nat :=
  (count (job_ok w0) (unsent (feeder s))
   + count (job_ok w0) (buf (jobsChan s))
   + sum_list_with (reader_expects w0) (readers s)
   + count (accepts w0) (buf (resultsChan s))
   + sum_list_with (worker_expects w0) (workers s)
   + adds c_transferred (hist s))%nat.

Definition on_course (w0 : World) (s : State) : Prop :=
  expected w0 s = count (job_ok w0) jobs.

(** ** From [TransferFiles] to [TransferFilesMock] *)

(** The state of [TransferFilesMock] that a state of [TransferFiles] stands
    for: where [TransferFiles] is between an [Add(1)] and its [go],
    [TransferFilesMock] has done both in its [wg.Go]. *)
Definition settle (s : State) : State :=
  match main s with
  | M_reader_go i =>
      set_main (M_readers (i + 1)) (set_readers (readers s ++ [R_range]) s)
  | M_worker_go i =>
      set_main (M_workers (i + 1)) (set_workers (workers s ++ [W_range]) s)
  | _ => s
  end.

(** ** Empty pools *)

(** No goroutine has been started. *)
Definition nothing_started (s : State) : Prop :=
  feeder s = F_none ∧ readers s = [] ∧ sentinel s = S_none ∧ workers s = [].



(** What holds throughout when no processing goroutine is started. *)
Definition no_process (s : State) : Prop :=
  workers s = [] ∧ processed (hist s) = [] ∧ transferred s = 0
  ∧ ∀ t f, main s = M_returned t f → t = 0.

(** ** The record of a run reports calls that were made *)

Definition sound_event (e : Event File) : Prop :=
  match e with
  | EvOpen job res => ∃ w, (Open (FileJob.RemotePath job) w).1 = res
  | EvReadAll _ f data err => ∃ w, (ReadAll f w).1 = (data, err)
  | EvProcess r err => ∃ w, (processFunc r w).1 = err
  | _ => True
  end.

(** ** A bound on the transitions left *)

Definition reader_rank (r : Reader File) : nat :=
  match r with
  | R_open _ => 9 | R_read _ _ => 8 | R_close _ _ _ _ => 7 | R_send _ => 6
  | R_fail => 3 | R_range => 2 | R_done => 1 | R_exit => 0
  end.
Definition worker_rank (w : Worker) : nat :=
  match w with
  | W_call _ => 4 | W_fail | W_ok => 3 | W_range => 2 | W_done => 1 | W_exit => 0
  end.
Definition feeder_rank (f : Feeder) : nat :=
  match f with F_range rest => 9 * length rest + 1 | F_none | F_exit => 0 end.
Definition sentinel_rank (x : Sentinel) : nat :=
  match x with S_wait => 2 | S_close => 1 | S_none | S_exit => 0 end.
Definition main_rank (m : Main) : nat :=
  let after_readers := (6 + 4 * Z.to_nat (Workers cfg))%nat in
  match m with
  | M_returned _ _ => 0
  | M_return => 1
  | M_wait => 2
  | M_worker_go i => 6 + 4 * Z.to_nat (Workers cfg - (i + 1))
  | M_workers i => 3 + 4 * Z.to_nat (Workers cfg - i)
  | M_go_sentinel => after_readers
  | M_reader_go i => after_readers + 4 + 4 * Z.to_nat (SFTPReaders cfg - (i + 1))
  | M_readers i => after_readers + 1 + 4 * Z.to_nat (SFTPReaders cfg - i)
  | M_go_feeder =>
      after_readers + 3 + 4 * Z.to_nat (SFTPReaders cfg) + 9 * length jobs
  | M_make =>
      after_readers + 4 + 4 * Z.to_nat (SFTPReaders cfg) + 9 * length jobs
  end%nat.

(** Every transition makes [rank] smaller. *)
Definition rank (s : State) : nat :=
  if panicked s then 0%nat
  else (1 + main_rank (main s) + feeder_rank (feeder s)
        + 8 * length (buf (jobsChan s))
        + sum_list_with reader_rank (readers s)
        + 3 * length (buf (resultsChan s))
        + sum_list_with worker_rank (workers s)
        + sentinel_rank (sentinel s))%nat.

(** ** A scheduler, to run the pipeline on examples *)

(** The goroutines that exist in a state, and the possible hand-overs. *)
Definition candidates (s : State) : list Tid :=
  [T_main; T_feeder; T_sentinel]
  ++ (T_reader <$> seq 0 (length (readers s)))
  ++ (T_worker <$> seq 0 (length (workers s)))
  ++ (i ← seq 0 (length (readers s));
      T_handoff i <$> seq 0 (length (workers s))).

(** The first of [ts] that can move by [step]. *)
Fixpoint pick (step : Tid → State → option State) (ts : list Tid) (s : State)
  : option Tid :=
  match ts with
  | [] => None
  | t :: ts => if step t s is Some _ then Some t else pick step ts s
  end.

(** The schedule that always runs the first (with [rev := true], the last)
    candidate that can move, for at most [n] transitions. *)
Fixpoint schedule (step : Tid → State → option State) (rev : bool) (n : nat)
    (s : State) : list Tid :=
  match n with
  | O => []
  | S n =>
      let ts := if rev then reverse (candidates s) else candidates s in
      match pick step ts s with
      | Some t =>
          match step t s with
          | Some s' => t :: schedule step rev n s'
          | None => []
          end
      | None => []
      end
  end.
End Pipeline.

(** ** Test doubles ([main_test.go]) *)

(** [type mockSFTPClient struct { files map[string][]byte }] *)
Record mockSFTPClient := { files : gmap string (list byte) }.

(** [func (m *mockSFTPClient) Open(path string) (io.ReadCloser, error)]: a
    reader over the stored bytes, or the error [file not found]. *)
Definition mock_Open (m : mockSFTPClient) (path : string)
  : list byte + string :=
  match files m !! path with
  | Some data => inl data
  | None => inr ("file not found: " +:+ path)
  end.

(** The processing function of the benchmarks: it rejects empty data. *)
Definition nonempty_processFunc (result : FileResult.t) : error :=
  if (length (FileResult.Data result) =? 0)%nat
  then Some ("empty data for " +:+ FileResult.ID result)
  else None.

(** The mock client with a processing function that has no effects: a file
    is the [bytes.Reader] over its content, which [io.ReadAll] returns whole,
    and [io.NopCloser] makes [Close] do nothing. *)
Definition mockEnv (m : mockSFTPClient) (pf : FileResult.t → error)
  : Env unit (list byte) :=
  {| Open path w := (mock_Open m path, w);
     ReadAll f w := (f, None, w);
     FileClose f w := w;
     processFunc r w := (pf r, w) |}.

(** Processing functions that accept, and reject, everything. *)
Definition accept_all (result : FileResult.t) : error := None.

(** Three jobs, and servers that hold the files of all of them, of all but
    the second, and of none. *)
Definition demo_jobs : list FileJob.t :=
  [ FileJob.mk "/remote/file_1.bin" "id_1";
    FileJob.mk "/remote/file_2.bin" "id_2";
    FileJob.mk "/remote/file_3.bin" "id_3" ].
Definition full_client : mockSFTPClient :=
  {| files := {[ "/remote/file_1.bin" := [x78; x78];
                 "/remote/file_2.bin" := [x78; x78; x78];
                 "/remote/file_3.bin" := [x78] ]} |}.
Definition demo_client : mockSFTPClient :=
  {| files := {[ "/remote/file_1.bin" := [x78; x78];
                 "/remote/file_3.bin" := [x78] ]} |}.

Definition demo_env : Env unit (list byte) :=
  mockEnv demo_client nonempty_processFunc.
Definition full_env : Env unit (list byte) := mockEnv full_client accept_all.

Definition demo_cfg : PipelineCfg :=
  {| SFTPReaders := 2; Workers := 2; BufferSize := 1 |}.
Definition unbuffered_cfg : PipelineCfg :=
  {| SFTPReaders := 3; Workers := 1; BufferSize := 0 |}.

(** Complete runs of the examples. *)
Definition demo_sched : list Tid :=
  Eval vm_compute in
    schedule (exec (E := demo_env) demo_cfg demo_jobs) true 200 (init tt).
Definition unbuffered_sched : list Tid :=
  Eval vm_compute in
    schedule (exec (E := demo_env) unbuffered_cfg demo_jobs) false 200 (init tt).

Definition mock_sched : list Tid :=
  Eval vm_compute in
    schedule (exec_mock (E := demo_env) demo_cfg demo_jobs) true 200 (init tt).

(** The states in which they end. *)
Definition demo_final : State unit (list byte) :=
  Eval vm_compute in
    default (init tt)
      (run (E := demo_env) demo_cfg demo_jobs demo_sched (init tt)).







(** * Further invariants of the pipeline *)

Section Resources.
Context {World File : Type} {E : Env World File}.
Local Abbreviation State := (State World File).
Variable cfg : PipelineCfg.
Variable jobs : list FileJob.t.

(** ** The jobs channel *)

(** [jobsChan] is closed by the feeder, when it exits, and hands the jobs
    out in the order of the job list: what it holds, followed by what the
    feeder has not sent, is the rest of the list. *)
Definition fed (s : State) : Prop :=
  closes ch_jobs (hist s) = (if feeder s is F_exit then 1 else 0)%nat
  ∧ ∃ taken, jobs = taken ++ buf (jobsChan s) ++ unsent jobs (feeder s).

(** ** Open files *)

(** The files passed to [Close]. *)
Definition closed_files (h : list (Event File)) : list File :=
  h ≫= λ e, match e with EvFileClose f => [f] | _ => [] end.

(** The file a fetch goroutine has read and not closed yet. *)
Definition reader_unclosed (r : Reader File) : list File :=
  match r with R_close _ f _ _ => [f] | _ => [] end.

(** Each file that was read is about to be closed or was closed once. *)
Definition files_closed (s : State) : Prop :=
  (read_files (hist s)).*2
    ≡ₚ (readers s ≫= reader_unclosed) ++ closed_files (hist s).

(** ** The results channel *)

(** [resultsChan] never holds more than its capacity. *)
Definition buffered (s : State) : Prop :=
  (length (buf (resultsChan s)) ≤ resultsCap cfg)%nat.

(** ** Nothing to do *)


(** ** The body runs ahead *)



(** ** Fetches that fail *)



(** ** What the processing function is to receive *)

(** The result that a job yields, judged by the answers of the client in the
    world [w0]: none if [Open] or [io.ReadAll] fails. *)
Definition read_outcome (w0 : World) (job : FileJob.t) (f : File)
  : list FileResult.t :=
  match (ReadAll f w0).1 with
  | (data, None) => [result_of (job, data)]
  | (_, Some _) => []
  end.
Definition outcome (w0 : World) (job : FileJob.t) : list FileResult.t :=
  match (Open (FileJob.RemotePath job) w0).1 with
  | inl f => read_outcome w0 job f
  | inr _ => []
  end.

(** The result that the job of a fetch goroutine yields. *)
Definition reader_outcome (w0 : World) (r : Reader File)
  : list FileResult.t :=
  match r with
  | R_open job => outcome w0 job
  | R_read job f => read_outcome w0 job f
  | R_close job _ data None => [result_of (job, data)]
  | R_send r => [r]
  | _ => []
  end.

(** The results that the jobs yield are still to be made, on their way, or
    were passed to [processFunc], each once. *)
Definition delivered (w0 : World) (s : State) : Prop :=
  jobs ≫= outcome w0
    ≡ₚ (unsent jobs (feeder s) ≫= outcome w0)
         ++ (buf (jobsChan s) ≫= outcome w0)
         ++ (readers s ≫= reader_outcome w0)
         ++ buf (resultsChan s)
         ++ (workers s ≫= worker_result) ++ processed (hist s).

(** ** One goroutine in each pool *)


End Resources.

(** * The mock client and the benchmarks ([main_test.go]) *)

From stdpp Require Import pretty.

Local Open Scope Z_scope.

(** What the mock client holds for a job: the result made of the job's ID
    and the bytes stored under its path, if any; and whether the job will be
    counted in [transferred] when the processing function is [pf]. *)
Definition stored (m : mockSFTPClient) (job : FileJob.t)
  : list FileResult.t :=
  match files m !! FileJob.RemotePath job with
  | Some data => [FileResult.mk (FileJob.ID job) data]
  | None => []
  end.
Definition mock_accepts (m : mockSFTPClient) (pf : FileResult.t → error)
    (job : FileJob.t) : bool :=
  match files m !! FileJob.RemotePath job with
  | Some data =>
      if pf (FileResult.mk (FileJob.ID job) data) is None then true else false
  | None => false
  end.

(** ** The set-up of the benchmarks *)

(** [fmt.Sprintf("/remote/file_%d.bin", i)] and [fmt.Sprintf("id_%d", i)] *)
Definition file_path (i : Z) : string :=
  "/remote/file_" +:+ pretty i +:+ ".bin".
Definition file_id (i : Z) : string := "id_" +:+ pretty i.

(** [bytes.Repeat(b, count)]; it panics ([None]) on a negative count. *)
Definition Repeat (b : list byte) (count : Z) : option (list byte) :=
  if count <? 0 then None else Some (mjoin (replicate (Z.to_nat count) b)).

(** [make([]FileJob, n)]: [n] zero values; it panics on a negative length. *)
Definition make_jobs (n : Z) : option (list FileJob.t) :=
  if n <? 0 then None
  else Some (replicate (Z.to_nat n) (FileJob.mk "" "")).

(** One iteration of the set-up loop (lines 35-42 and 75-82): the file of
    [fileSize] bytes [x] is stored under its path, and the job for it is
    written at index [i]. *)
Definition setup_file (fileSize : Z) (i : Z)
    (st : mockSFTPClient * list FileJob.t)
  : option (mockSFTPClient * list FileJob.t) :=
  let path := file_path i in
  data ← Repeat [x78] fileSize;
  Some ({| files := <[path := data]> (files st.1) |},
        <[Z.to_nat i := FileJob.mk path (file_id i)]> st.2).

(** Lines 29-42 and 70-82: the mock client and the jobs. *)
Definition setup (numFiles fileSize : Z)
  : option (mockSFTPClient * list FileJob.t) :=
  jobs ← make_jobs numFiles;
  foldl (λ st i, st ≫= setup_file fileSize i)
    (Some ({| files := ∅ |}, jobs)) (seqZ 0 numFiles).

(** ** The benchmark loops *)

(** How a benchmark function ends: it runs through, it stops in
    [b.Fatalf], or its set-up panics. *)
Inductive Verdict := Pass | Fatalf (msg : string) | Panic.




(** The processing function of [BenchmarkTransferFilesVariousConfigs]. *)
Definition nonempty_processFunc_configs (result : FileResult.t) : error :=
  if (length (FileResult.Data result) =? 0)%nat
  then Some "empty data"
  else None.

(** Lines 91-99. *)
Definition configs : list (string * PipelineCfg) :=
  [ ("Default", DefaultCfg);
    ("HighReaders", {| SFTPReaders := 200; Workers := 10; BufferSize := 10 |});
    ("HighWorkers", {| SFTPReaders := 80; Workers := 50; BufferSize := 10 |});
    ("LargeBuffer", {| SFTPReaders := 80; Workers := 10; BufferSize := 100 |})
  ].

(** Lines 103-108. *)
Fixpoint configs_loop (cfg : PipelineCfg) (mockClient : mockSFTPClient)
    (jobs : list FileJob.t) (numFiles : Z) (scheds : list (list Tid))
  : option Verdict :=
  match scheds with
  | [] => Some Pass
  | sched :: scheds =>
      out ← TransferFilesMock
              (E := mockEnv mockClient nonempty_processFunc_configs)
              cfg jobs sched tt;
      let '(transferred, failed) := out in
      if (0 <? failed) || negb (transferred =? wrap32 numFiles)
      then Some (Fatalf ("failed: transferred=" +:+ pretty transferred
                         +:+ ", failed=" +:+ pretty failed))
      else configs_loop cfg mockClient jobs numFiles scheds
  end.

(** [func BenchmarkTransferFilesVariousConfigs(b *testing.B)]: the verdict
    of the sub-benchmark that [b.Run] starts for each configuration, given
    the schedules of its calls; [None] when the set-up panics. *)
Definition BenchmarkTransferFilesVariousConfigs
    (scheds : list (list (list Tid)))
  : option (list (string * option Verdict)) :=
  st ← setup 1000 (1024 * 100);
  Some (zip_with (λ c ss, (c.1, configs_loop c.2 st.1 st.2 1000 ss))
          configs scheds).

(** ** Further examples *)

Definition negative_cfg : PipelineCfg :=
  {| SFTPReaders := 2; Workers := 2; BufferSize := -1 |}.
Definition no_workers_cfg : PipelineCfg :=
  {| SFTPReaders := 2; Workers := 0; BufferSize := 1 |}.



(** The run of [TransferFilesMock] under [mock_sched], and a run of
    [TransferFiles] with one goroutine in each pool. *)
Definition mock_final : State unit (list byte) :=
  Eval vm_compute in
    default (init tt)
      (run_mock (E := demo_env) demo_cfg demo_jobs mock_sched (init tt)).

(** A run without processing goroutines, up to the state in which nothing
    moves any more. *)
Definition leak_sched : list Tid :=
  Eval vm_compute in
    schedule (exec (E := full_env) no_workers_cfg demo_jobs) true 200 (init tt).
Definition leak_final : State unit (list byte) :=
  Eval vm_compute in
    default (init tt)
      (run (E := full_env) no_workers_cfg demo_jobs leak_sched (init tt)).

(** * Proofs *)

(** ** Arithmetic and lists *)

Lemma wrap32_small (z : Z) : - 2 ^ 31 ≤ z < 2 ^ 31 → wrap32 z = z.
Proof. intros Hz. unfold wrap32. rewrite Z.mod_small; lia. Qed.

Lemma AddInt32_wrap32 (n : Z) : AddInt32 (wrap32 n) 1 = wrap32 (n + 1).
Proof.
  unfold AddInt32, wrap32. f_equal.
  replace ((n + 2 ^ 31) mod 2 ^ 32 - 2 ^ 31 + 1 + 2 ^ 31)
    with ((n + 2 ^ 31) mod 2 ^ 32 + 1) by lia.
  rewrite Zplus_mod_idemp_l. f_equal. lia.
Qed.


Lemma sum_list_with_insert {A} (f : A → nat) (l : list A) (i : nat) (x y : A) :
  l !! i = Some x →
  (sum_list_with f (<[i:=y]> l) + f x = sum_list_with f l + f y)%nat.
Proof.
  revert i. induction l as [|a l IH]; intros [|i] Hi; simplify_eq/=; [lia|].
  specialize (IH _ Hi). lia.
Qed.

Lemma sum_list_with_lookup {A} (f : A → nat) (l : list A) (i : nat) (x : A) :
  l !! i = Some x → (f x ≤ sum_list_with f l)%nat.
Proof.
  revert i. induction l as [|a l IH]; intros [|i] Hi; simplify_eq/=; [lia|].
  specialize (IH _ Hi). lia.
Qed.

Lemma sum_list_with_0 {A} (f : A → nat) (l : list A) :
  sum_list_with f l = 0%nat ↔ Forall (λ x, f x = 0%nat) l.
Proof.
  induction l as [|a l IH]; simpl.
  - split; [constructor|done].
  - rewrite Forall_cons, <- IH. lia.
Qed.

Lemma sum_list_with_pos {A} (f : A → nat) (l : list A) :
  (0 < sum_list_with f l)%nat → ∃ i x, l !! i = Some x ∧ (0 < f x)%nat.
Proof.
  induction l as [|a l IH]; simpl; [lia|]. intros Hpos.
  destruct (decide (0 < f a)%nat) as [Ha|Ha].
  - exists 0%nat, a. done.
  - destruct IH as (i & x & Hi & Hx); [lia|]. exists (S i), x. done.
Qed.

Lemma bind_insert_perm {A B} (f : A → list B) (l : list A) (i : nat) (x y : A) :
  l !! i = Some x → (<[i:=y]> l ≫= f) ++ f x ≡ₚ (l ≫= f) ++ f y.
Proof.
  revert i. induction l as [|a l IH]; intros [|i] Hi; simplify_eq/=.
  - solve_Permutation.
  - rewrite <- !(assoc_L (++)). f_equiv. by apply IH.
Qed.

(** ** Case analysis of a transition *)

Ltac unfold_step H :=
  unfold main_step, feeder_step, reader_step, sentinel_step, worker_step,
    handoff_step, chan_send, chan_range, chan_close, wg_done in H.

Ltac step_cases H :=
  unfold exec, exec_with in H;
  lazymatch type of H with
  | context [panicked ?s] =>
      let Hp := fresh "Hnopanic" in
      destruct (panicked s) eqn:Hp; [discriminate H|]
  end;
  lazymatch type of H with
  | match ?t with _ => _ end = _ => destruct t
  end;
  unfold_step H;
  repeat (simplify_option_eq; try case_match);
  simplify_eq.

Ltac destruct_state s :=
  destruct s as [?m ?fd ?rs ?st ?ws [?jb ?jc] [?rb ?rc] ?rwg ?pwg ?tr ?fl ?wd ?h ?pn];
  simpl in *; simplify_eq.

(** Replaces the sums over an updated pool by the sums over the pool. *)
Ltac sums :=
  repeat match goal with
    | Hl : ?l !! ?i = Some ?x |- context [sum_list_with ?f (<[?i:=?y]> ?l)] =>
        let Hs := fresh "Hs" in
        let n := fresh "n" in
        let Hn := fresh in
        pose proof (sum_list_with_insert f l i x y Hl) as Hs;
        remember (sum_list_with f (<[i:=y]> l)) as n eqn:Hn in *;
        clear Hn; simpl in Hs
    end;
  rewrite ?sum_list_with_app; simpl.

Section Proofs.
Context {World File : Type} {E : Env World File}.
Variable cfg : PipelineCfg.
Variable jobs : list FileJob.t.
Local Abbreviation State := (State World File).
Implicit Types (s : State) (t : Tid).



Lemma accounted_step t s s' :
  exec cfg jobs t s = Some s' → wf cfg jobs s → accounted jobs s → accounted jobs s'.
Proof.
  intros H. step_cases H; intros Hwf (Hn & Ht & Hf); destruct_state s;
    unfold accounted, in_flight in *; simpl in *;
    (split_and!; [|done || (rewrite AddInt32_wrap32; f_equal; lia)..]);
    rewrite ?length_app; sums; try lia.
  - destruct Hwf as [_ _ _ _ _ _ [_ Hfd] _ _ _ _ _ _ _ _]. simpl in Hfd.
    rewrite Hfd in Hn by done. simpl in Hn. lia.
Qed.

Lemma pending_reader_nonneg (m : Main) : 0 ≤ pending_reader m ≤ 1.
Proof. destruct m; simpl; lia. Qed.

Lemma pending_worker_nonneg (m : Main) : 0 ≤ pending_worker m ≤ 1.
Proof. destruct m; simpl; lia. Qed.

(** The goroutine that moves is alive. *)
Ltac alive :=
  repeat match goal with
    | Hl : ?l !! ?i = Some ?x |- _ =>
        lazymatch type of x with
        | Reader _ =>
            lazymatch goal with
            | _ : (reader_live x ≤ sum_list_with reader_live l)%nat |- _ => fail
            | _ => pose proof (sum_list_with_lookup reader_live l i x Hl)
            end
        | Worker =>
            lazymatch goal with
            | _ : (worker_live x ≤ sum_list_with worker_live l)%nat |- _ => fail
            | _ => pose proof (sum_list_with_lookup worker_live l i x Hl)
            end
        end
    end; simpl in *.

(** A pool none of whose goroutines has left its loop, or whose channel is
    drained anyway. *)
Ltac pool_old :=
  eapply Forall_impl; [eassumption|]; simpl;
  let Hr := fresh in let Hp := fresh in
  intros ? Hr Hp;
  first [ exact (Hr Hp) | reflexivity
        | specialize (Hr Hp); unfold drained in *; by simplify_eq ].
Ltac pool_new := by intros [?|?].
Ltac pool :=
  first [ apply Forall_insert; [pool_old | pool_new]
        | apply Forall_app; split; [pool_old | repeat constructor; pool_new]
        | pool_old ].

(** What the program point of the body says about the feeder and the
    sentinel. *)
Ltac started :=
  simpl in *;
  repeat match goal with
    | H : _ ↔ false = false |- _ => apply proj2 in H; specialize (H eq_refl)
    end;
  simplify_eq/=.

Lemma wf_step t s s' :
  exec cfg jobs t s = Some s' → wf cfg jobs s → wf cfg jobs s'.
Proof.
  intros H Hwf. step_cases H;
    destruct Hwf as [Hpanic Hbounds Hrs Hws Hrwg Hpwg Hfd Hst Hjc Hrc Hcl Hsp Hrp Hwp Hmp];
    pose proof (pending_reader_nonneg (main s));
    pose proof (pending_worker_nonneg (main s));
    destruct_state s; alive; started;
    constructor; simpl in *.
  all: try done.
  all: try lia.
  all: rewrite ?length_app, ?length_insert; simpl; try lia.
  all: sums; try lia.
  all: try (intros [?|?]; done).
  all: try (intros [?|(?&?&?)]; done).
  all: try (let Hx := fresh in intros Hx; specialize (Hsp Hx); lia).
  all: try (let Hx := fresh in intros Hx; specialize (Hmp Hx); lia).
  all: try (split; [done|]; let Hx := fresh in intros Hx; apply Hfd in Hx; done).
  all: try (split; [done|]; let Hx := fresh in intros Hx; apply Hst in Hx; done).
  all: try (pool; fail).
  - (* the feeder starts on the fresh channel *)
    unfold make_chan in Hjc. simplify_eq. simpl. split; [done | lia].
  - (* return *)
    intros _. apply Hmp. by left.
  - (* a job leaves jobsChan *)
    destruct fd; unfold make_chan in *; simplify_eq/=; [|done].
    split; [tauto | lia].
  - (* no send on a closed resultsChan: its closer waited for the senders *)
    destruct st; try done. specialize (Hsp (or_intror eq_refl)). lia.
  - (* a fetch goroutine calls Done after its loop *)
    apply Forall_insert; [done|]. intros _.
    eapply (Forall_lookup_1 _ _ _ _ Hrp); [eassumption | by left].
  - (* the sentinel closes *)
    intros _. apply Hsp. by left.
  - apply Forall_insert; [done|]. intros _.
    eapply (Forall_lookup_1 _ _ _ _ Hwp); [eassumption | by left].
Qed.

Lemma init_wf (w : World) : wf cfg jobs (init (File := File) w).
Proof.
  constructor; simpl; try done; try lia.
Qed.

Lemma init_accounted (w : World) : accounted jobs (init (File := File) w).
Proof. unfold accounted, in_flight. simpl. split_and!; [lia|done..]. Qed.

Lemma init_traced (w : World) : traced jobs (init (File := File) w).
Proof. unfold traced. simpl. rewrite !app_nil_r. done. Qed.

(** Replaces what an updated pool holds by what the pool held, give or take
    the item that moved. *)
Ltac binds :=
  repeat match goal with
    | Hl : ?l !! ?i = Some ?x |- context [mbind ?f (<[?i:=?y]> ?l)] =>
        let HL := fresh "HL" in
        let L := fresh "L" in
        let HeqL := fresh in
        pose proof (bind_insert_perm f l i x y Hl) as HL;
        remember (mbind f (<[i:=y]> l)) as L eqn:HeqL in *; clear HeqL;
        simpl in HL; rewrite ?app_nil_r in HL;
        try apply Permutation_app_inv_r in HL
    end.

Ltac perm_with H :=
  etrans; [first [exact H | apply Permutation_skip; exact H]|];
  repeat match goal with
    | HL : ?L ≡ₚ _ |- context [?L] => is_var L; rewrite HL; clear HL
    | HL : ?L ++ _ ≡ₚ ?R |- context [?R] => rewrite <- HL; clear HL
    end;
  solve_Permutation.

Lemma traced_step t s s' :
  exec cfg jobs t s = Some s' → wf cfg jobs s → traced jobs s → traced jobs s'.
Proof.
  intros H. step_cases H; intros Hwf (Hj & Hf & Hr);
    destruct Hwf as [_ _ _ _ _ _ Hfd _ Hjc _ _ _ _ _ _];
    destruct_state s; started; unfold traced in *; simpl in *;
    rewrite ?bind_app; simpl; rewrite ?app_nil_r.
  all: try done.
  all: try match goal with e : error |- _ => destruct e; simpl in * end.
  all: binds.
  all: split_and!.
  all: try (perm_with Hj; fail).
  all: try (perm_with Hf; fail).
  all: try (perm_with Hr; fail).
Qed.

Lemma rank_step t s s' :
  exec cfg jobs t s = Some s' → (rank cfg jobs s' < rank cfg jobs s)%nat.
Proof.
  intros H. step_cases H; destruct_state s; unfold rank; simpl;
    rewrite ?length_app; simpl; sums; lia.
Qed.

(** ** Runs *)

Lemma run_cons t sched s :
  run cfg jobs (t :: sched) s = exec cfg jobs t s ≫= run cfg jobs sched.
Proof. done. Qed.

Lemma run_app sched1 sched2 s :
  run cfg jobs (sched1 ++ sched2) s
  = run cfg jobs sched1 s ≫= run cfg jobs sched2.
Proof.
  revert s. induction sched1 as [|t sched1 IH]; intros s; [done|].
  rewrite <- app_comm_cons, !run_cons.
  destruct (exec cfg jobs t s); simpl; [apply IH | done].
Qed.

Lemma run_invariant (P : State → Prop) :
  (∀ t s s', exec cfg jobs t s = Some s' → P s → P s') →
  ∀ sched s s', run cfg jobs sched s = Some s' → P s → P s'.
Proof.
  intros Hstep. induction sched as [|t sched IH]; intros s s' Hrun Hs.
  - unfold run in Hrun. by simplify_eq/=.
  - rewrite run_cons in Hrun.
    destruct (exec cfg jobs t s) as [s1|] eqn:Ht; [|done].
    simpl in Hrun. eapply IH; [done|]. by eapply Hstep.
Qed.

(** What holds in every state of every run. *)
Lemma run_wf sched w s :
  run cfg jobs sched (init w) = Some s →
  wf cfg jobs s ∧ accounted jobs s ∧ traced jobs s.
Proof.
  intros Hrun.
  refine (run_invariant
            (λ s, wf cfg jobs s ∧ accounted jobs s ∧ traced jobs s)
            _ sched (init w) s Hrun _).
  - intros t s1 s2 Hstep (Hwf & Hacc & Htr).
    split_and!; eauto using wf_step, accounted_step, traced_step.
  - split_and!; eauto using init_wf, init_accounted, init_traced.
Qed.

(** ** When the call returns, everything has finished *)

Lemma returned_quiescent s :
  wf cfg jobs s → 0 < SFTPReaders cfg → 0 < Workers cfg →
  main_past (main s) → quiescent s.
Proof.
  intros [_ _ Hrs Hws _ _ _ _ Hjc Hrc _ Hsp Hrp Hwp Hmp] HR HW Hpast.
  specialize (Hmp Hpast).
  assert (started_readers cfg (main s) = SFTPReaders cfg
          ∧ started_workers cfg (main s) = Workers cfg) as [HsR HsW].
  { destruct Hpast as [->|(?&?& ->)]; simpl; lia. }
  rewrite HsR in Hrs. rewrite HsW in Hws. clear HsR HsW Hpast.
  apply sum_list_with_0 in Hmp.
  assert (Forall (λ w, w = W_exit) (workers s)) as Hall.
  { eapply Forall_impl; [exact Hmp|]. by intros []. }
  assert (drained (resultsChan s)) as Hdr.
  { destruct (workers s) as [|w ws]; simpl in *; [lia|].
    apply Forall_cons in Hall as [-> _]. apply Forall_cons in Hwp as [Hw _].
    apply Hw. by right. }
  assert (sentinel s = S_exit) as Hst.
  { rewrite Hdr in Hrc. simpl in Hrc. by destruct (sentinel s). }
  specialize (Hsp (or_intror Hst)). apply sum_list_with_0 in Hsp.
  assert (Forall (λ r, r = R_exit) (readers s)) as Hallr.
  { eapply Forall_impl; [exact Hsp|]. by intros []. }
  assert (drained (jobsChan s)) as Hdj.
  { destruct (readers s) as [|r rs]; simpl in *; [lia|].
    apply Forall_cons in Hallr as [-> _]. apply Forall_cons in Hrp as [Hr _].
    apply Hr. by right. }
  split_and!; try done.
  rewrite Hdj in Hjc. destruct (feeder s); simpl in *; [done| |done].
  by destruct Hjc.
Qed.

Lemma quiescent_in_flight s : quiescent s → in_flight jobs s = 0%nat.
Proof.
  intros (Hfd & _ & Hrs & Hws & Hj & Hr). unfold in_flight.
  rewrite Hfd, Hj, Hr. simpl.
  assert (sum_list_with reader_holds (readers s) = 0%nat) as ->.
  { apply sum_list_with_0. eapply Forall_impl; [exact Hrs|]. by intros ? ->. }
  assert (sum_list_with worker_holds (workers s) = 0%nat) as ->.
  { apply sum_list_with_0. eapply Forall_impl; [exact Hws|]. by intros ? ->. }
  done.
Qed.

(** ** The call always returns *)

(** Before the call has returned, some goroutine can move. *)
Lemma progress s :
  wf cfg jobs s → 0 ≤ BufferSize cfg → returned s = None →
  ∃ t, is_Some (exec cfg jobs t s).
Proof.
  intros [Hpanic Hbounds Hrs Hws Hrwg Hpwg Hfd Hst Hjc Hrc _ Hsp Hrp Hwp Hmp] HB Hret.
  assert (panicked s = false) as Hnp.
  { destruct (panicked s); [|done]. specialize (Hpanic eq_refl). lia. }
  unfold returned in Hret. unfold exec, exec_with. rewrite Hnp.
  destruct s as [m fd rs st ws [jb jc] [rb rc] rwg pwg tr fl wd h pn].
  simpl in *.
  destruct m; try done; simpl in *;
    try (exists T_main; unfold main_step; simpl; repeat case_match; eauto; fail).
  (* the body waits for the processing goroutines *)
  destruct (decide (pwg = 0)) as [->|Hpwg0]; [by exists T_main; eauto|].
  destruct (sum_list_with_pos worker_live ws) as (k & w & Hk & Hw); [lia|].
  destruct w; simpl in Hw; try lia;
    try (exists (T_worker k); unfold worker_step, wg_done; simpl; rewrite Hk;
         simpl; repeat case_match; eauto; fail).
  (* a processing goroutine waits on resultsChan *)
  destruct rb as [|r rb];
    [|exists (T_worker k); unfold worker_step, chan_range; simpl; rewrite Hk; eauto].
  destruct rc;
    [exists (T_worker k); unfold worker_step, chan_range; simpl; rewrite Hk; eauto|].
  destruct st; try done;
    [by destruct Hst as [Hst _]; specialize (Hst eq_refl)|
    |exists T_sentinel; unfold sentinel_step, chan_close; simpl; eauto].
  (* the sentinel waits for the fetch goroutines *)
  destruct (decide (rwg = 0)) as [->|Hrwg0]; [by exists T_sentinel; eauto|].
  destruct (sum_list_with_pos reader_live rs) as (i & r & Hi & Hr); [lia|].
  destruct r; simpl in Hr; try lia;
    try (exists (T_reader i); unfold reader_step, wg_done; simpl; rewrite Hi;
         simpl; repeat case_match; eauto; fail).
  - (* a fetch goroutine waits on jobsChan *)
    destruct jb as [|job jb];
      [|exists (T_reader i); unfold reader_step, chan_range; simpl; rewrite Hi; eauto].
    destruct jc;
      [exists (T_reader i); unfold reader_step, chan_range; simpl; rewrite Hi; eauto|].
    exists T_feeder. unfold feeder_step, chan_send, chan_close, jobsCap. simpl.
    destruct fd as [|[|job rest]|]; simpl in *; try done; eauto.
    + by destruct Hfd as [Hfd _]; specialize (Hfd eq_refl).
    + destruct Hjc as [_ Hlen]. destruct (length jobs); [lia|eauto].
  - (* a fetch goroutine waits to send, a processing goroutine to receive *)
    exists (T_handoff i k). unfold handoff_step. simpl. rewrite Hi, Hk. eauto.
Qed.

(** From every state of a run, the call can be run on to its return. *)
Lemma can_return s :
  wf cfg jobs s → 0 ≤ BufferSize cfg →
  ∃ sched s', run cfg jobs sched s = Some s' ∧ is_Some (returned s').
Proof.
  intros Hwf HB. remember (rank cfg jobs s) as n eqn:Hn.
  revert s Hn Hwf. induction (lt_wf n) as [n _ IH]. intros s -> Hwf.
  destruct (returned s) as [out|] eqn:Hret.
  - exists [], s. rewrite Hret. eauto.
  - destruct (progress s Hwf HB Hret) as (t & s1 & Ht).
    destruct (IH (rank cfg jobs s1) (rank_step _ _ _ Ht) s1 eq_refl)
      as (sched & s' & Hrun & Hs'); [by eapply wf_step|].
    exists (t :: sched), s'. rewrite run_cons, Ht. done.
Qed.


(** Once everything has finished, nothing moves. *)
Lemma quiescent_final t s :
  quiescent s → is_Some (returned s) → exec cfg jobs t s = None.
Proof.
  intros (Hfd & Hst & Hrs & Hws & _ & _) [out Hret].
  unfold exec, exec_with. destruct (panicked s); [done|].
  unfold returned in Hret.
  destruct t; simpl.
  - unfold main_step. by destruct (main s).
  - unfold feeder_step. by rewrite Hfd.
  - unfold reader_step. destruct (readers s !! i) as [r|] eqn:Hi; [|done].
    by rewrite (Forall_lookup_1 _ _ _ _ Hrs Hi).
  - unfold sentinel_step. by rewrite Hst.
  - unfold worker_step. destruct (workers s !! k) as [w|] eqn:Hk; [|done].
    by rewrite (Forall_lookup_1 _ _ _ _ Hws Hk).
  - unfold handoff_step. destruct (readers s !! i) as [r|] eqn:Hi; [|done].
    by rewrite (Forall_lookup_1 _ _ _ _ Hrs Hi).
Qed.

Lemma returned_past s out : returned s = Some out → main_past (main s).
Proof. unfold returned. destruct (main s); try done. right. eauto. Qed.

(** With both pools non-empty, the values returned are the final values of
    the counters. *)
Lemma settled_step t s s' :
  0 < SFTPReaders cfg → 0 < Workers cfg →
  exec cfg jobs t s = Some s' → wf cfg jobs s → settled s → settled s'.
Proof.
  intros HR HW H Hwf Hs.
  destruct (returned s) as [out|] eqn:Hret.
  { rewrite quiescent_final in H; [done| |by eauto].
    eapply returned_quiescent; eauto using returned_past. }
  unfold returned in Hret. clear Hs Hwf. unfold settled.
  step_cases H; destruct_state s; simpl; intros ?? Hm; by simplify_eq.
Qed.

Lemma run_settled sched w s :
  0 < SFTPReaders cfg → 0 < Workers cfg →
  run cfg jobs sched (init w) = Some s → settled s.
Proof.
  intros HR HW Hrun.
  refine (proj2 (run_invariant (λ s, wf cfg jobs s ∧ settled s)
                   _ sched (init w) s Hrun _)).
  - intros t s1 s2 Hstep [Hwf Hs]. eauto using wf_step, settled_step.
  - split; [apply init_wf | done].
Qed.

(** The counts at the return of a run with both pools non-empty. *)
Lemma returned_counts sched w s (tr fl : Z) :
  0 < SFTPReaders cfg → 0 < Workers cfg →
  run cfg jobs sched (init w) = Some s → returned s = Some (tr, fl) →
  quiescent s
  ∧ (adds c_transferred (hist s) + adds c_failed (hist s))%nat = length jobs
  ∧ tr = wrap32 (Z.of_nat (adds c_transferred (hist s)))
  ∧ fl = wrap32 (Z.of_nat (adds c_failed (hist s))).
Proof.
  intros HR HW Hrun Hret.
  destruct (run_wf _ _ _ Hrun) as (Hwf & (Hn & Ht & Hf) & _).
  pose proof (run_settled _ _ _ HR HW Hrun) as Hs.
  assert (quiescent s) as Hq
    by eauto using returned_quiescent, returned_past.
  rewrite (quiescent_in_flight _ Hq) in Hn.
  unfold returned in Hret. destruct (main s) eqn:Hm; simplify_eq.
  destruct (Hs _ _ Hm) as [<- <-]. done.
Qed.


(** ** Runs in which every fetch fails, or none *)

Lemma traced_reader_job s i job :
  traced jobs s → readers s !! i = Some (R_open job) → job ∈ jobs.
Proof.
  intros (Hj & _) Hi. rewrite Hj, !elem_of_app. right. right. left.
  apply list_elem_of_bind. exists (R_open job). split; [by left|].
  by eapply list_elem_of_lookup_2.
Qed.

(** What the pool says about the goroutine that moves. *)
Ltac lookups :=
  repeat match goal with
    | Hl : ?l !! ?i = Some ?x, HF : Forall ?P ?l |- _ =>
        let H := fresh "Hx" in
        pose proof (Forall_lookup_1 P l i x HF Hl) as H; simpl in H;
        revert HF
    end;
  intros.

Ltac pools :=
  repeat first [ apply Forall_insert; [assumption|]
               | apply Forall_app; split; [assumption|]
               | apply Forall_cons; split
               | apply Forall_nil ].

(** The job a fetch goroutine is opening is one of the input jobs. *)
Ltac job_of_input Htr :=
  eapply traced_reader_job; [exact Htr | simpl; eassumption].


Lemma all_fetched_step t s s' :
  fetch_succeeds jobs →
  exec cfg jobs t s = Some s' → traced jobs s →
  all_fetched s → all_fetched s'.
Proof.
  intros Hok H. step_cases H; intros Htr (Hrs & Hn);
    destruct_state s; lookups; unfold all_fetched; simpl; try done;
    try match goal with
      | H0 : Open (FileJob.RemotePath ?job) ?wd = _ |- _ =>
          destruct (Hok job wd) as (? & ? & Hopen & Hread); [job_of_input Htr|];
          rewrite Hopen in H0; simplify_eq
      end;
    try match goal with
      | H0 : ReadAll ?f ?wd = _, Hx : ∀ w, (ReadAll ?f w).1.2 = None |- _ =>
          specialize (Hx wd); rewrite H0 in Hx; simpl in Hx; simplify_eq
      end;
    (split; [pools; done|]); rewrite ?length_app; simpl; sums; lia.
Qed.




Lemma run_all_fetched sched w s :
  fetch_succeeds jobs →
  run cfg jobs sched (init w) = Some s → all_fetched s.
Proof.
  intros Hok Hrun.
  refine (proj2 (run_invariant
                   (λ s, (wf cfg jobs s ∧ traced jobs s) ∧ all_fetched s)
                   _ sched (init w) s Hrun _)).
  - intros t s1 s2 Hstep [[Hwf Htr] Hs].
    split_and!; eauto using wf_step, traced_step, all_fetched_step.
  - split_and!; eauto using init_wf, init_traced. by repeat split.
Qed.



(** ** Runs with capabilities that do not depend on the world *)

Lemma on_course_step (w0 : World) t s s' :
  stateless →
  exec cfg jobs t s = Some s' → wf cfg jobs s →
  on_course jobs w0 s → on_course jobs w0 s'.
Proof.
  intros (Hopen & Hread & Hproc) H. step_cases H;
    intros [_ _ _ _ _ _ Hfd _ _ _ _ _ _ _ _] Hs;
    destruct_state s; started; unfold on_course, expected, count in *;
    simpl in *; try done;
    rewrite ?sum_list_with_app; simpl; sums;
    try match goal with
      | H0 : Open ?p ?wd = _ |- _ =>
          unfold job_ok in *; rewrite (Hopen p w0 wd), H0 in *; simpl in *
      end;
    try match goal with
      | H0 : ReadAll ?f ?wd = _ |- _ =>
          unfold file_ok in *; rewrite (Hread f w0 wd), H0 in *; simpl in *
      end;
    try match goal with
      | H0 : processFunc ?r ?wd = _ |- _ =>
          unfold accepts in *; rewrite (Hproc r w0 wd), H0 in *; simpl in *
      end;
    unfold result_of in *; simpl in *; lia.
Qed.

Lemma run_on_course (w0 : World) sched w s :
  stateless →
  run cfg jobs sched (init w) = Some s → on_course jobs w0 s.
Proof.
  intros Hst Hrun.
  refine (proj2 (run_invariant (λ s, wf cfg jobs s ∧ on_course jobs w0 s)
                   _ sched (init w) s Hrun _)).
  - intros t s1 s2 Hstep [Hwf Hs]. eauto using wf_step, on_course_step.
  - split; [apply init_wf|]. unfold on_course, expected. simpl. lia.
Qed.

Lemma quiescent_expected (w0 : World) s :
  quiescent s → expected jobs w0 s = adds c_transferred (hist s).
Proof.
  intros (Hfd & _ & Hrs & Hws & Hj & Hr). unfold expected.
  rewrite Hfd, Hj, Hr. simpl.
  assert (sum_list_with (reader_expects w0) (readers s) = 0%nat) as ->.
  { apply sum_list_with_0. eapply Forall_impl; [exact Hrs|]. by intros ? ->. }
  assert (sum_list_with (worker_expects w0) (workers s) = 0%nat) as ->.
  { apply sum_list_with_0. eapply Forall_impl; [exact Hws|]. by intros ? ->. }
  done.
Qed.

(** ** [TransferFiles] and [TransferFilesMock] *)

Ltac use_eqs :=
  repeat match goal with
    | H : ?x = _ |- context [?x] => rewrite H; simpl
    end.

(** A transition of [TransferFiles] is a transition of [TransferFilesMock],
    or the [go] that [wg.Go] has already done. *)
Lemma mock_forward t s s' :
  exec cfg jobs t s = Some s' →
  settle s' = settle s ∨ exec_mock cfg jobs t (settle s) = Some (settle s').
Proof.
  intros H. step_cases H; destruct_state s;
    try (left; reflexivity);
    right; try destruct m; unfold settle, exec_mock, exec_with; simpl;
    unfold main_step_mock, main_step, feeder_step, reader_step, sentinel_step,
      worker_step, handoff_step, chan_send, chan_range, chan_close, wg_done;
    simpl;
    rewrite ?lookup_app_l by (eapply lookup_lt_Some; eassumption);
    use_eqs; 
    unfold reader_goto, worker_goto, panic, log; simpl;
    rewrite ?insert_app_l by (eapply lookup_lt_Some; eassumption);
    reflexivity.
Qed.

(** A transition of [TransferFilesMock] is one or two of [TransferFiles]. *)
Lemma mock_backward t s s' :
  exec_mock cfg jobs t s = Some s' → ∃ sched, run cfg jobs sched s = Some s'.
Proof.
  unfold exec_mock, exec_with. intros H.
  destruct (panicked s) eqn:Hnp; [done|].
  assert (t ≠ T_main ∨ main_step_mock cfg jobs s = main_step cfg jobs s
          → ∃ sched, run cfg jobs sched s = Some s') as Hsame.
  { intros Hs. exists [t]. rewrite run_cons. unfold exec, exec_with.
    rewrite Hnp. destruct t; try by rewrite H.
    destruct Hs as [?|<-]; [done|]. by rewrite H. }
  destruct t; try (apply Hsame; by left).
  unfold main_step_mock in *.
  destruct (main s) eqn:Hm; try (apply Hsame; right; unfold main_step; by rewrite Hm);
    try done.
  - destruct (i <? SFTPReaders cfg) eqn:Hi;
      [|apply Hsame; right; unfold main_step; by rewrite Hm, Hi].
    exists [T_main; T_main]. rewrite run_cons.
    unfold exec, exec_with, main_step. rewrite Hnp, Hm, Hi. simpl.
    rewrite run_cons. unfold exec, exec_with, main_step. simpl.
    rewrite Hnp. simpl. by simplify_eq.
  - destruct (i <? Workers cfg) eqn:Hi;
      [|apply Hsame; right; unfold main_step; by rewrite Hm, Hi].
    exists [T_main; T_main]. rewrite run_cons.
    unfold exec, exec_with, main_step. rewrite Hnp, Hm, Hi. simpl.
    rewrite run_cons. unfold exec, exec_with, main_step. simpl.
    rewrite Hnp. simpl. by simplify_eq.
Qed.

Lemma run_mock_cons t sched s :
  run_mock cfg jobs (t :: sched) s
  = exec_mock cfg jobs t s ≫= run_mock cfg jobs sched.
Proof. done. Qed.

Lemma run_mock_forward sched s s' :
  run cfg jobs sched s = Some s' →
  ∃ sched', run_mock cfg jobs sched' (settle s) = Some (settle s').
Proof.
  revert s. induction sched as [|t sched IH]; intros s Hrun.
  - exists []. unfold run in Hrun. by simplify_eq/=.
  - rewrite run_cons in Hrun.
    destruct (exec cfg jobs t s) as [s1|] eqn:Ht; [|done]. simpl in Hrun.
    destruct (IH _ Hrun) as (sched' & Hrun').
    destruct (mock_forward _ _ _ Ht) as [Heq|Hstep].
    + exists sched'. by rewrite <- Heq.
    + exists (t :: sched'). by rewrite run_mock_cons, Hstep.
Qed.

Lemma run_mock_backward sched s s' :
  run_mock cfg jobs sched s = Some s' →
  ∃ sched', run cfg jobs sched' s = Some s'.
Proof.
  revert s. induction sched as [|t sched IH]; intros s Hrun.
  - exists []. unfold run_mock in Hrun. by simplify_eq/=.
  - rewrite run_mock_cons in Hrun.
    destruct (exec_mock cfg jobs t s) as [s1|] eqn:Ht; [|done]. simpl in Hrun.
    destruct (IH _ Hrun) as (sched2 & Hrun2).
    destruct (mock_backward _ _ _ Ht) as (sched1 & Hrun1).
    exists (sched1 ++ sched2). by rewrite run_app, Hrun1.
Qed.

Lemma settle_returned s out : returned s = Some out → settle s = s.
Proof. unfold returned, settle. by destruct (main s). Qed.

(** ** Runs with an empty pool *)


Lemma no_process_step t s s' :
  Workers cfg ≤ 0 →
  exec cfg jobs t s = Some s' → wf cfg jobs s → no_process s → no_process s'.
Proof.
  intros HW H. step_cases H;
    intros [_ Hb _ _ _ _ _ _ _ _ _ _ _ _ _] (Hws & Hp & Ht & Hret);
    destruct_state s; unfold no_process; simpl in *; try done; try lia.
  split_and!; try done. intros ?? ?. by simplify_eq.
Qed.


Lemma run_no_process sched w s :
  Workers cfg ≤ 0 →
  run cfg jobs sched (init w) = Some s → no_process s.
Proof.
  intros HR Hrun.
  refine (proj2 (run_invariant (λ s, wf cfg jobs s ∧ no_process s)
                   _ sched (init w) s Hrun _)).
  - intros t s1 s2 Hstep [Hwf Hs]. eauto using wf_step, no_process_step.
  - split; [apply init_wf|]. by repeat split.
Qed.



(** ** What the record of a run says *)

Lemma sound_step t s s' :
  exec cfg jobs t s = Some s' →
  Forall sound_event (hist s) → Forall sound_event (hist s').
Proof.
  intros H Hs. step_cases H; destruct_state s; simpl; try done;
    apply Forall_cons; (split; [|done]); simpl; try done;
    eexists; match goal with H0 : _ = _ |- _ => by rewrite H0 end.
Qed.

Lemma run_sound sched w s :
  run cfg jobs sched (init w) = Some s → Forall sound_event (hist s).
Proof.
  intros Hrun.
  refine (run_invariant (λ s, Forall sound_event (hist s))
            _ sched (init w) s Hrun _); [|by constructor].
  eauto using sound_step.
Qed.

Lemma elem_of_processed (h : list (Event File)) r :
  r ∈ processed h ↔ ∃ err, EvProcess r err ∈ h.
Proof.
  unfold processed. rewrite list_elem_of_bind. split.
  - intros (e & Hr & He). destruct e; try by apply elem_of_nil in Hr.
    apply list_elem_of_singleton in Hr as ->. eauto.
  - intros (err & He). eexists. split; [|done]. by left.
Qed.

Lemma elem_of_fetched (h : list (Event File)) job data :
  (job, data) ∈ fetched h → ∃ f, EvReadAll job f data None ∈ h.
Proof.
  unfold fetched. rewrite list_elem_of_bind.
  intros (e & Hr & He). destruct e as [| ? ? ? [|] | | | |];
    try by apply elem_of_nil in Hr.
  apply list_elem_of_singleton in Hr. simplify_eq. eauto.
Qed.

Lemma read_files_fetched (h : list (Event File)) job f data err :
  EvReadAll job f data err ∈ h → (job, f) ∈ read_files h.
Proof.
  intros He. unfold read_files. rewrite list_elem_of_bind.
  eexists. split; [|done]. by left.
Qed.

Lemma elem_of_opened_files (h : list (Event File)) job f :
  (job, f) ∈ opened_files h → EvOpen job (inl f) ∈ h ∧ job ∈ opened h.
Proof.
  unfold opened_files, opened. rewrite !list_elem_of_bind.
  intros (e & Hr & He). destruct e as [? [|] | | | | |];
    try by apply elem_of_nil in Hr.
  apply list_elem_of_singleton in Hr. simplify_eq. split; [done|].
  eexists. split; [|done]. by left.
Qed.

(** Every result passed to [processFunc] was built from an input job and the
    bytes read from the file opened for it. *)
Lemma processed_provenance s r err :
  traced jobs s → Forall sound_event (hist s) → EvProcess r err ∈ hist s →
  ∃ job f data w1 w2,
    job ∈ jobs
    ∧ (Open (FileJob.RemotePath job) w1).1 = inl f
    ∧ (ReadAll f w2).1 = (data, None)
    ∧ r = {| FileResult.ID := FileJob.ID job; FileResult.Data := data |}.
Proof.
  intros (Hj & Hf & Hr) Hsound He.
  assert (r ∈ result_of <$> fetched (hist s)) as Hin.
  { rewrite Hr, !elem_of_app. do 3 right. apply elem_of_processed. eauto. }
  apply list_elem_of_fmap in Hin as ([job data] & -> & Hin).
  apply elem_of_fetched in Hin as (f & Hread).
  assert ((job, f) ∈ opened_files (hist s)) as Hopen.
  { rewrite Hf, elem_of_app. right. by eapply read_files_fetched. }
  apply elem_of_opened_files in Hopen as (Hopen & Hjob).
  rewrite Forall_forall in Hsound.
  destruct (Hsound _ Hread) as (w2 & Hw2).
  destruct (Hsound _ Hopen) as (w1 & Hw1).
  exists job, f, data, w1, w2. split_and!; try done.
  rewrite Hj, !elem_of_app. by do 3 right.
Qed.

Lemma traced_submseteq s :
  traced jobs s → processed (hist s) ⊆+ result_of <$> fetched (hist s).
Proof.
  intros (_ & _ & Hr). rewrite Hr.
  apply submseteq_inserts_l, submseteq_inserts_l, submseteq_inserts_l. done.
Qed.

Lemma bind_all_nil {A B} (g : A → list B) (x : A) (l : list A) :
  g x = [] → Forall (λ y, y = x) l → l ≫= g = [].
Proof.
  intros Hg. induction 1 as [|y l -> _ IH]; [done|].
  change ((x :: l) ≫= g) with (g x ++ (l ≫= g)). by rewrite Hg, IH.
Qed.

Lemma traced_quiescent s :
  traced jobs s → quiescent s →
  opened (hist s) ≡ₚ jobs
  ∧ read_files (hist s) ≡ₚ opened_files (hist s)
  ∧ processed (hist s) ≡ₚ result_of <$> fetched (hist s).
Proof.
  intros (Hj & Hf & Hr) (Hfd & _ & Hrs & Hws & Hjc & Hrc).
  rewrite Hfd, Hjc, (bind_all_nil _ R_exit) in Hj by done.
  rewrite (bind_all_nil _ R_exit) in Hf by done.
  rewrite Hrc, (bind_all_nil _ R_exit), (bind_all_nil _ W_exit) in Hr by done.
  simpl in *. done.
Qed.

(** ** What the increments stand for *)

Lemma tallied_step t s s' :
  exec cfg jobs t s = Some s' → tallied s → tallied s'.
Proof.
  intros H. step_cases H; intros (Ht & Hf); destruct_state s;
    unfold tallied in *; simpl in *; try done;
    rewrite ?sum_list_with_app; simpl; sums; lia.
Qed.

Lemma run_tallied sched w s :
  run cfg jobs sched (init w) = Some s → tallied s.
Proof.
  intros Hrun.
  refine (run_invariant tallied _ sched (init w) s Hrun _); [|done].
  eauto using tallied_step.
Qed.


(** Every call in the record ended in one way. *)
Lemma outcomes_partition (h : list (Event File)) :
  length (opened h) = (open_failures h + length (opened_files h))%nat
  ∧ length (read_files h) = (read_failures h + length (fetched h))%nat
  ∧ length (processed h) = (acceptances h + rejections h)%nat.
Proof.
  induction h as [|e h (IH1 & IH2 & IH3)]; [done|].
  unfold opened, opened_files, read_files, fetched, processed,
    open_failures, read_failures, acceptances, rejections in *.
  unfold mbind in *.
  destruct e as [? [|] | ? ? ? [|] | | ? [|] | |]; simpl in *; lia.
Qed.

(** ** The counts returned by special runs *)

Lemma wrap32_of_nat (n : nat) :
  Z.of_nat n < 2 ^ 31 → wrap32 (Z.of_nat n) = Z.of_nat n.
Proof. intros Hn. apply wrap32_small. lia. Qed.





Lemma returned_stateless sched w s (tr fl : Z) :
  stateless → 0 < SFTPReaders cfg → 0 < Workers cfg →
  run cfg jobs sched (init w) = Some s → returned s = Some (tr, fl) →
  tr = wrap32 (Z.of_nat (count (job_ok w) jobs))
  ∧ fl = wrap32 (Z.of_nat (length jobs - count (job_ok w) jobs)).
Proof.
  intros Hst HR HW Hrun Hret.
  destruct (returned_counts _ _ _ _ _ HR HW Hrun Hret) as (Hq & Hn & -> & ->).
  pose proof (run_on_course w _ _ _ Hst Hrun) as Hc. unfold on_course in Hc.
  rewrite (quiescent_expected _ _ Hq) in Hc.
  split; f_equal; lia.
Qed.

(** ** The claims *)






(** C8: every result passed to [processFunc] carries the ID of an input job
    and the bytes that [io.ReadAll] returned without error for the file that
    [Open] returned for that job's [RemotePath]; the results passed to
    [processFunc] are, each at most once, the results built by the fetch
    goroutines; and with both pools non-empty, when [TransferFiles] has
    returned they are exactly those results, each once. *)
Theorem C8_result_is_the_fetched_job :
  ∀ sched w s, run cfg jobs sched (init w) = Some s →
    (∀ r err, EvProcess r err ∈ hist s →
       ∃ job f data w1 w2,
         job ∈ jobs
         ∧ (Open (FileJob.RemotePath job) w1).1 = inl f
         ∧ (ReadAll f w2).1 = (data, None)
         ∧ r = {| FileResult.ID := FileJob.ID job; FileResult.Data := data |})
    ∧ processed (hist s) ⊆+ result_of <$> fetched (hist s)
    ∧ (0 < SFTPReaders cfg → 0 < Workers cfg → is_Some (returned s) →
       processed (hist s) ≡ₚ result_of <$> fetched (hist s)).
Proof.
  intros sched w s Hrun.
  destruct (run_wf _ _ _ Hrun) as (Hwf & _ & Htr).
  split_and!.
  - intros r err He. eapply processed_provenance; eauto using run_sound.
  - by apply traced_submseteq.
  - intros HR HW [out Hret].
    apply traced_quiescent; [done|].
    eauto using returned_quiescent, returned_past.
Qed.



(** C7: [TransferFiles] and [TransferFilesMock] return the same pairs: what
    one returns under some schedule, the other returns under some schedule,
    with the same calls made in the same order and the same final world. *)
Theorem C7_TransferFilesMock_equivalent :
  ∀ w out,
    ((∃ sched, TransferFiles cfg jobs sched w = Some out)
     ↔ (∃ sched, TransferFilesMock cfg jobs sched w = Some out))
    ∧ ∀ h w',
        (∃ sched s, run cfg jobs sched (init w) = Some s
                    ∧ returned s = Some out ∧ hist s = h ∧ world s = w')
        ↔ (∃ sched s, run_mock cfg jobs sched (init w) = Some s
                      ∧ returned s = Some out ∧ hist s = h ∧ world s = w').
Proof.
  intros w out.
  assert (∀ s, returned s = Some out →
            (∃ sched, run cfg jobs sched (init w) = Some s)
            ↔ (∃ sched, run_mock cfg jobs sched (init w) = Some s)) as Hiff.
  { intros s Hret. split; intros (sched & Hrun).
    - destruct (run_mock_forward _ _ _ Hrun) as (sched' & Hrun').
      rewrite (settle_returned _ _ Hret) in Hrun'. eauto.
    - eauto using run_mock_backward. }
  split.
  - unfold TransferFiles, TransferFilesMock. split; intros (sched & Hout).
    + destruct (run cfg jobs sched (init w)) as [s|] eqn:Hrun; [|done].
      simpl in Hout. destruct (proj1 (Hiff s Hout)) as (sched' & Hrun'); [eauto|].
      exists sched'. by rewrite Hrun'.
    + destruct (run_mock cfg jobs sched (init w)) as [s|] eqn:Hrun; [|done].
      simpl in Hout. destruct (proj2 (Hiff s Hout)) as (sched' & Hrun'); [eauto|].
      exists sched'. by rewrite Hrun'.
  - intros h w'. split; intros (sched & s & Hrun & Hret & Hh & Hw).
    + destruct (proj1 (Hiff s Hret)) as (sched' & Hrun'); eauto 10.
    + destruct (proj2 (Hiff s Hret)) as (sched' & Hrun'); eauto 10.
Qed.

(** ** Further properties of [TransferFiles] *)

(** *** Panics *)


(** X2: with a negative buffer size the call panics in
    [make(chan FileResult, cfg.BufferSize)], its first transition: nothing
    has been started or called, nothing moves afterwards, and the call does
    not return under any schedule. *)
Theorem X2_negative_buffer_panics :
  BufferSize cfg < 0 →
  (∀ sched w, TransferFiles cfg jobs sched w = None)
  ∧ ∀ sched w s, run cfg jobs sched (init w) = Some s →
      nothing_started s ∧ hist s = []
      ∧ (sched = [] ∨ sched = [T_main] ∧ panicked s = true).
Proof.
  intros HB.
  assert (∀ sched w s, run cfg jobs sched (init w) = Some s →
            sched = [] ∧ s = init w
            ∨ sched = [T_main] ∧ s = panic (init w)) as Hruns.
  { intros [|t [|t' sched]] w s Hrun.
    - left. unfold run in Hrun. by simplify_eq/=.
    - right. rewrite run_cons in Hrun.
      destruct (exec cfg jobs t (init w)) as [s1|] eqn:Ht; [|done].
      unfold run in Hrun. simplify_eq/=.
      step_cases Ht; simpl in *; try done; lia.
    - rewrite run_cons in Hrun.
      destruct (exec cfg jobs t (init w)) as [s1|] eqn:Ht; [|done].
      change (run cfg jobs (t' :: sched) s1 = Some s) in Hrun.
      assert (exec cfg jobs t' s1 = None) as Hstuck.
      { unfold exec, exec_with.
        step_cases Ht; simpl in *; try done; lia. }
      by rewrite run_cons, Hstuck in Hrun. }
  split.
  - intros sched w. unfold TransferFiles.
    destruct (run cfg jobs sched (init w)) as [s|] eqn:Hrun; [|done].
    by destruct (Hruns _ _ _ Hrun) as [[_ ->]|[_ ->]].
  - intros sched w s Hrun.
    destruct (Hruns _ _ _ Hrun) as [[-> ->]|[-> ->]]; split_and!; eauto.
    all: by repeat split.
Qed.

(** *** The feeder *)

Lemma fed_step t s s' :
  exec cfg jobs t s = Some s' → wf cfg jobs s → fed jobs s → fed jobs s'.
Proof.
  intros H Hwf (Hc & taken & Hj). step_cases H;
    destruct Hwf as [_ _ _ _ _ _ Hfd _ Hjc _ _ _ _ _ _];
    destruct_state s; started; unfold fed; simpl in *.
  all: try (split; [done|]; by exists taken).
  - split; [by rewrite Hc|]. by exists taken.
  - split; [done|]. exists taken. by rewrite <- (assoc_L (++)).
  - split; [done|]. eexists (taken ++ [_]). by rewrite <- (assoc_L (++)).
  - split; [done|]. eexists (taken ++ [_]). by rewrite <- (assoc_L (++)).
Qed.

Lemma run_fed sched w s :
  run cfg jobs sched (init w) = Some s → fed jobs s.
Proof.
  intros Hrun.
  refine (proj2 (run_invariant (λ s, wf cfg jobs s ∧ fed jobs s)
                   _ sched (init w) s Hrun _)).
  - intros t s1 s2 Hstep [Hwf Hs]. eauto using wf_step, fed_step.
  - split; [apply init_wf|]. split; [done|]. by exists [].
Qed.

(** The feeder can make each of its transitions at once. *)
Lemma feeder_enabled s rest :
  wf cfg jobs s → panicked s = false → feeder s = F_range rest →
  is_Some (exec cfg jobs T_feeder s).
Proof.
  intros Hwf Hnp Hfd. pose proof (wf_jobsChan _ _ _ Hwf) as Hjc.
  rewrite Hfd in Hjc. destruct Hjc as [Hcl Hlen].
  unfold exec, exec_with, feeder_step, chan_send, chan_close, jobsCap.
  rewrite Hnp, Hfd, Hcl. destruct rest as [|job rest]; [eauto|].
  simpl in Hlen.
  destruct (length (buf (jobsChan s)) <? length jobs)%nat eqn:Hlt; [eauto|].
  apply Nat.ltb_ge in Hlt. lia.
Qed.

(** X3: the feeder never waits and never panics: [jobsChan] has room for
    all jobs, so that each of its transitions, a send or the final [close],
    can be made at once.  [jobsChan] hands the jobs out in the order of the
    job list, never holds more than [len(jobs)] of them, and is closed
    once, by the feeder when it exits; with both pools non-empty it has
    been closed when the call returns. *)
Theorem X3_feeder_never_blocks :
  0 ≤ BufferSize cfg →
  ∀ sched w s, run cfg jobs sched (init w) = Some s →
    (∀ rest, feeder s = F_range rest → is_Some (exec cfg jobs T_feeder s))
    ∧ (∃ taken, jobs = taken ++ buf (jobsChan s) ++ unsent jobs (feeder s))
    ∧ (length (buf (jobsChan s)) ≤ length jobs)%nat
    ∧ closes ch_jobs (hist s) = (if feeder s is F_exit then 1 else 0)%nat
    ∧ (closed (jobsChan s) = true ↔ feeder s = F_exit)
    ∧ (0 < SFTPReaders cfg → 0 < Workers cfg → is_Some (returned s) →
       closes ch_jobs (hist s) = 1%nat).
Proof.
  intros HB sched w s Hrun.
  destruct (run_wf _ _ _ Hrun) as (Hwf & _ & _).
  destruct (run_fed _ _ _ Hrun) as (Hc & taken & Hj).
  assert (panicked s = false) as Hnp.
  { destruct (panicked s) eqn:Hp; [|done].
    pose proof (wf_panic _ _ _ Hwf Hp). lia. }
  pose proof (wf_jobsChan _ _ _ Hwf) as Hjc.
  split_and!; [|by exists taken| |done| |].
  - intros rest Hfd. by eapply feeder_enabled.
  - rewrite Hj, !length_app. lia.
  - destruct (feeder s); simpl in *.
    + rewrite Hjc. done.
    + destruct Hjc as [-> _]. done.
    + done.
  - intros HR HW [out Hret].
    assert (quiescent s) as (Hfd & _)
      by eauto using returned_quiescent, returned_past.
    by rewrite Hc, Hfd.
Qed.

(** *** Open files and results in memory *)

Lemma files_closed_step t s s' :
  exec cfg jobs t s = Some s' → files_closed s → files_closed s'.
Proof.
  intros H Hf. step_cases H; destruct_state s; unfold files_closed in *;
    simpl in *; rewrite ?bind_app; simpl; rewrite ?app_nil_r; try done.
  all: binds.
  all: try (perm_with Hf; fail).
Qed.

Lemma buffered_step t s s' :
  exec cfg jobs t s = Some s' → buffered cfg s → buffered cfg s'.
Proof.
  intros H Hb. step_cases H; destruct_state s; unfold buffered in *;
    simpl in *; rewrite ?length_app; simpl; try done; try lia.
  all: match goal with
       | H : (_ <? _)%nat = true |- _ => apply Nat.ltb_lt in H
       end.
  all: unfold resultsCap in *; lia.
Qed.

Lemma run_files_closed sched w s :
  run cfg jobs sched (init w) = Some s → files_closed s ∧ buffered cfg s.
Proof.
  intros Hrun.
  refine (run_invariant (λ s, files_closed s ∧ buffered cfg s)
            _ sched (init w) s Hrun _).
  - intros t s1 s2 Hstep [Hf Hb].
    eauto using files_closed_step, buffered_step.
  - split; [unfold files_closed; simpl; reflexivity|].
    unfold buffered. simpl. lia.
Qed.

(** A pool holds at most one item for each of its goroutines. *)
Lemma length_bind_le {A B C} (f : A → list B) (g : A → list C)
    (l : list A) :
  (∀ x, length (f x) + length (g x) ≤ 1)%nat →
  (length (l ≫= f) + length (l ≫= g) ≤ length l)%nat.
Proof.
  intros Hfg. unfold mbind. induction l as [|a l IH]; simpl; [done|].
  rewrite !length_app. specialize (Hfg a). lia.
Qed.

Lemma readers_bound s :
  wf cfg jobs s → (length (readers s) ≤ Z.to_nat (SFTPReaders cfg))%nat.
Proof.
  intros Hwf. pose proof (wf_readers _ _ _ Hwf) as Hrs.
  pose proof (wf_bounds _ _ _ Hwf) as Hb.
  destruct (main s); simpl in *; lia.
Qed.

Lemma workers_bound s :
  wf cfg jobs s → (length (workers s) ≤ Z.to_nat (Workers cfg))%nat.
Proof.
  intros Hwf. pose proof (wf_workers _ _ _ Hwf) as Hws.
  pose proof (wf_bounds _ _ _ Hwf) as Hb.
  destruct (main s); simpl in *; lia.
Qed.

(** X4: a file is passed to [Close] only after it was opened and read, and
    at most once for each time it was opened; at any time at most
    [SFTPReaders] opened files have not been closed; and once the fetch
    goroutines have exited, as they have when a call with non-empty pools
    returns, every file that was opened has been closed, whether it could be
    read or not. *)
Theorem X4_every_opened_file_is_closed_once :
  ∀ sched w s, run cfg jobs sched (init w) = Some s →
    closed_files (hist s) ⊆+ (read_files (hist s)).*2
    ∧ read_files (hist s) ⊆+ opened_files (hist s)
    ∧ (length (opened_files (hist s))
       ≤ length (closed_files (hist s)) + Z.to_nat (SFTPReaders cfg))%nat
    ∧ (Forall (λ r, r = R_exit) (readers s) →
       closed_files (hist s) ≡ₚ (opened_files (hist s)).*2)
    ∧ (0 < SFTPReaders cfg → 0 < Workers cfg → is_Some (returned s) →
       closed_files (hist s) ≡ₚ (opened_files (hist s)).*2).
Proof.
  intros sched w s Hrun.
  destruct (run_wf _ _ _ Hrun) as (Hwf & _ & _ & Hof & _).
  destruct (run_files_closed _ _ _ Hrun) as [Hfc _].
  unfold files_closed in Hfc.
  assert (Forall (λ r, r = R_exit) (readers s) →
          closed_files (hist s) ≡ₚ (opened_files (hist s)).*2) as Hexit.
  { intros Hrs.
    rewrite (bind_all_nil _ R_exit) in Hof by done.
    rewrite (bind_all_nil _ R_exit) in Hfc by done.
    simpl in *. by rewrite Hof, Hfc. }
  split_and!; [| | |done|].
  - rewrite Hfc. apply submseteq_inserts_l. done.
  - rewrite Hof. apply submseteq_inserts_l. done.
  - pose proof (Permutation_length Hof) as Hlen.
    pose proof (Permutation_length Hfc) as Hlen'.
    rewrite length_app in Hlen. rewrite length_fmap, length_app in Hlen'.
    pose proof (length_bind_le reader_file reader_unclosed (readers s)) as Hle.
    pose proof (readers_bound _ Hwf).
    assert (∀ x : Reader File,
              (length (reader_file x) + length (reader_unclosed x) ≤ 1)%nat)
      as Hone by (by intros []; simpl; lia).
    specialize (Hle Hone). lia.
  - intros HR HW [out Hret]. apply Hexit.
    assert (quiescent s) as (_ & _ & Hrs & _)
      by eauto using returned_quiescent, returned_past.
    done.
Qed.

(** X5: [resultsChan] never holds more than [BufferSize] results, and the
    results that have been read and not yet passed to [processFunc] never
    number more than [SFTPReaders + BufferSize + Workers]: a fetch
    goroutine holds at most one, the channel at most [BufferSize], and a
    processing goroutine at most one. *)
Theorem X5_results_in_memory_bounded :
  ∀ sched w s, run cfg jobs sched (init w) = Some s →
    (length (buf (resultsChan s)) ≤ Z.to_nat (BufferSize cfg))%nat
    ∧ (length (fetched (hist s))
       ≤ length (processed (hist s)) + Z.to_nat (SFTPReaders cfg)
         + Z.to_nat (BufferSize cfg) + Z.to_nat (Workers cfg))%nat.
Proof.
  intros sched w s Hrun.
  destruct (run_wf _ _ _ Hrun) as (Hwf & _ & _ & _ & Hres).
  destruct (run_files_closed _ _ _ Hrun) as [_ Hb].
  unfold buffered, resultsCap in Hb. split; [done|].
  pose proof (Permutation_length Hres) as Hlen.
  rewrite length_fmap, !length_app in Hlen.
  pose proof (length_bind_le reader_result (λ _, @nil unit) (readers s)) as Hr.
  pose proof (length_bind_le worker_result (λ _, @nil unit) (workers s)) as Hw.
  pose proof (readers_bound _ Hwf). pose proof (workers_bound _ Hwf).
  assert (∀ x : Reader File,
            (length (reader_result x) + length (@nil unit) ≤ 1)%nat) as Hr1.
  { intros []; simpl; try lia. destruct err; simpl; lia. }
  assert (∀ x : Worker,
            (length (worker_result x) + length (@nil unit) ≤ 1)%nat) as Hw1.
  { intros []; simpl; lia. }
  specialize (Hr Hr1). specialize (Hw Hw1). lia.
Qed.

(** *** The empty job list *)




(** *** No processing goroutines *)



(** *** Fetches that fail in [Open] or in [io.ReadAll] *)




(** *** Capabilities that do not depend on the world: what is processed *)

Lemma delivered_step (w0 : World) t s s' :
  stateless →
  exec cfg jobs t s = Some s' → wf cfg jobs s →
  delivered jobs w0 s → delivered jobs w0 s'.
Proof.
  intros (Hopen & Hread & _) H. step_cases H;
    intros [_ _ _ _ _ _ Hfd _ _ _ _ _ _ _ _] Hs;
    destruct_state s; started; unfold delivered in *; simpl in *;
    rewrite ?bind_app; simpl; rewrite ?app_nil_r; try done.
  all: try match goal with
         | H0 : Open ?p ?wd = _ |- _ =>
             pose proof (Hopen p w0 wd) as Hans; rewrite H0 in Hans;
             simpl in Hans
         end.
  all: try match goal with
         | H0 : ReadAll ?f ?wd = _ |- _ =>
             pose proof (Hread f w0 wd) as Hans; rewrite H0 in Hans;
             simpl in Hans
         end.
  all: try match goal with e : error |- _ => destruct e; simpl in * end.
  all: binds.
  all: try match goal with
         | HL : _ ++ outcome _ _ ≡ₚ _ |- _ =>
             unfold outcome in HL; rewrite Hans in HL; simpl in HL
         | HL : _ ++ read_outcome _ _ _ ≡ₚ _ |- _ =>
             unfold read_outcome in HL; rewrite Hans in HL; simpl in HL
         end.
  all: try match goal with
         | HL : _ ++ ?X ≡ₚ _ ++ ?X |- _ => apply Permutation_app_inv_r in HL
         end.
  all: rewrite ?app_nil_r in *.
  all: try (perm_with Hs; fail).
Qed.

Lemma run_delivered (w0 : World) sched w s :
  stateless →
  run cfg jobs sched (init w) = Some s → delivered jobs w0 s.
Proof.
  intros Hst Hrun.
  refine (proj2 (run_invariant (λ s, wf cfg jobs s ∧ delivered jobs w0 s)
                   _ sched (init w) s Hrun _)).
  - intros t s1 s2 Hstep [Hwf Hs]. eauto using wf_step, delivered_step.
  - split; [apply init_wf|]. unfold delivered. simpl.
    by rewrite !app_nil_r.
Qed.

Lemma run_processed sched w s :
  stateless → run cfg jobs sched (init w) = Some s →
  processed (hist s) ⊆+ jobs ≫= outcome w
  ∧ (quiescent s → processed (hist s) ≡ₚ jobs ≫= outcome w).
Proof.
  intros Hst Hrun.
  pose proof (run_delivered w _ _ _ Hst Hrun) as Hd. unfold delivered in Hd.
  split.
  - rewrite Hd. do 5 apply submseteq_inserts_l. done.
  - intros (Hfd & _ & Hrs & Hws & Hjc & Hrc).
    rewrite Hfd, Hjc, Hrc, (bind_all_nil _ R_exit), (bind_all_nil _ W_exit)
      in Hd by done.
    simpl in Hd. by rewrite Hd.
Qed.


(** *** [TransferFilesMock] *)

Lemma run_mock_app sched1 sched2 s :
  run_mock cfg jobs (sched1 ++ sched2) s
  = run_mock cfg jobs sched1 s ≫= run_mock cfg jobs sched2.
Proof.
  revert s. induction sched1 as [|t sched1 IH]; intros s; [done|].
  rewrite <- app_comm_cons, !run_mock_cons.
  destruct (exec_mock cfg jobs t s); simpl; [apply IH | done].
Qed.

(** [wg.Go] leaves no program point between its [Add(1)] and its [go]. *)
Lemma mock_settled_step t s s' :
  exec_mock cfg jobs t s = Some s' → settle s = s → settle s' = s'.
Proof.
  unfold exec_mock, exec_with. intros H Hs.
  destruct (panicked s); [done|].
  assert (main s' = main s → settle s' = s') as Hsame.
  { intros Hm. unfold settle in *. rewrite Hm.
    destruct (main s) eqn:Hms; try done;
      apply (f_equal main) in Hs; simpl in Hs; congruence. }
  destruct t;
    unfold main_step_mock, main_step in H; unfold_step H;
    repeat (simplify_option_eq; try case_match); simplify_eq;
    try (apply Hsame; simpl; done); try done.
Qed.

Lemma run_mock_settled sched w s :
  run_mock cfg jobs sched (init w) = Some s → settle s = s.
Proof.
  assert (∀ sched s0 s, run_mock cfg jobs sched s0 = Some s →
            settle s0 = s0 → settle s = s) as Hinv.
  { clear. induction sched as [|t sched IH]; intros s0 s Hrun Hs0.
    - unfold run_mock in Hrun. by simplify_eq/=.
    - rewrite run_mock_cons in Hrun.
      destruct (exec_mock cfg jobs t s0) as [s1|] eqn:Ht; [|done].
      simpl in Hrun. eauto using mock_settled_step. }
  intros Hrun. by eapply Hinv.
Qed.

(** Every run of [TransferFilesMock] can be continued to its return. *)
Lemma TransferFilesMock_returns sched w s :
  0 ≤ BufferSize cfg → run_mock cfg jobs sched (init w) = Some s →
  ∃ sched' out, TransferFilesMock cfg jobs (sched ++ sched') w = Some out.
Proof.
  intros HB Hrun.
  destruct (run_mock_backward _ _ _ Hrun) as (sched0 & Hrun0).
  destruct (run_wf _ _ _ Hrun0) as (Hwf & _).
  destruct (can_return s Hwf HB) as (sched1 & s' & Hrun1 & out & Hout).
  destruct (run_mock_forward _ _ _ Hrun1) as (sched' & Hrun').
  rewrite (run_mock_settled _ _ _ Hrun), (settle_returned _ _ Hout) in Hrun'.
  exists sched', out. unfold TransferFilesMock.
  rewrite run_mock_app, Hrun. simpl. by rewrite Hrun'.
Qed.


(** *** One goroutine in each pool: the order of the calls *)






(** *** No processing goroutines: the fetch goroutines are left blocked *)

(** With no processing goroutine, more jobs than [resultsChan] can hold and
    fetches that succeed, the fetch goroutines never all exit, so that the
    goroutine of lines 74-77 never gets past its [readWg.Wait()]. *)
Lemma sentinel_waits sched w s :
  Workers cfg ≤ 0 → 0 < SFTPReaders cfg → 0 ≤ BufferSize cfg →
  fetch_succeeds jobs → BufferSize cfg < Z.of_nat (length jobs) →
  run cfg jobs sched (init w) = Some s →
  sentinel s ≠ S_close ∧ sentinel s ≠ S_exit.
Proof.
  intros HW HR HB Hok Hmore Hrun.
  cut (¬ (sentinel s = S_close ∨ sentinel s = S_exit)); [tauto|].
  intros Hst.
  destruct (run_wf _ _ _ Hrun) as (Hwf & _ & Hj & Hf & Hr).
  destruct (run_all_fetched _ _ _ Hok Hrun) as (_ & Hall).
  destruct (run_no_process _ _ _ HW Hrun) as (Hws & Hp & _).
  destruct (run_tallied _ _ _ Hrun) as (_ & Htally).
  destruct (run_files_closed _ _ _ Hrun) as [_ Hbuf].
  destruct (outcomes_partition (hist s)) as (Ho & Hrd & Hpr).
  pose proof (wf_sentinel_past _ _ _ Hwf Hst) as Hlive.
  apply sum_list_with_0 in Hlive.
  assert (Forall (λ r, r = R_exit) (readers s)) as Hrs.
  { eapply Forall_impl; [exact Hlive|]. by intros []. }
  assert (Z.of_nat (length (readers s)) = SFTPReaders cfg) as Hlen.
  { rewrite (wf_readers _ _ _ Hwf).
    pose proof (wf_sentinel _ _ _ Hwf) as Hstarted.
    destruct (main s); simpl in *; try lia;
      destruct Hstarted as [_ Hs]; specialize (Hs eq_refl);
      rewrite Hs in Hst; by destruct Hst. }
  assert (drained (jobsChan s)) as Hdr.
  { pose proof (wf_reader_past _ _ _ Hwf) as Hrp.
    destruct (readers s) as [|r rs]; simpl in *; [lia|].
    apply Forall_cons in Hrs as [-> _]. apply Forall_cons in Hrp as [Hr0 _].
    apply Hr0. by right. }
  assert (feeder s = F_exit) as Hfd.
  { pose proof (wf_jobsChan _ _ _ Hwf) as Hjc. rewrite Hdr in Hjc.
    destruct (feeder s); simpl in *; [done| |done]. by destruct Hjc. }
  rewrite Hfd, Hdr, (bind_all_nil _ R_exit) in Hj by done.
  rewrite (bind_all_nil _ R_exit) in Hf by done.
  rewrite Hws, Hp, (bind_all_nil _ R_exit) in Hr by done.
  simpl in *. rewrite app_nil_r in Hr.
  apply Permutation_length in Hj, Hf, Hr. rewrite length_fmap in Hr.
  assert (sum_list_with reader_failing (readers s) = 0%nat) as Hfail.
  { apply sum_list_with_0. eapply Forall_impl; [exact Hrs|]. by intros ? ->. }
  unfold buffered, resultsCap in Hbuf. rewrite Hws, Hp in *. simpl in *.
  lia.
Qed.

(** The goroutines that can move are among the candidates. *)
Lemma exec_candidates t s s' :
  exec cfg jobs t s = Some s' → t ∈ candidates s.
Proof.
  unfold exec, exec_with, candidates. destruct (panicked s); [done|].
  intros H. rewrite !elem_of_app.
  destruct t as [| |i| |k|i k].
  - left. by left.
  - left. right. by left.
  - right. left. apply list_elem_of_fmap. exists i. split; [done|].
    unfold reader_step in H.
    destruct (readers s !! i) eqn:Hi; [|done].
    apply elem_of_seq. apply lookup_lt_Some in Hi. lia.
  - left. right. right. by left.
  - right. right. left. apply list_elem_of_fmap. exists k. split; [done|].
    unfold worker_step in H.
    destruct (workers s !! k) eqn:Hk; [|done].
    apply elem_of_seq. apply lookup_lt_Some in Hk. lia.
  - right. right. right. apply list_elem_of_bind. exists i.
    unfold handoff_step in H.
    destruct (readers s !! i) eqn:Hi; [|done].
    destruct (workers s !! k) eqn:Hk; [|by destruct r].
    split.
    + apply list_elem_of_fmap. exists k. split; [done|].
      apply elem_of_seq. apply lookup_lt_Some in Hk. lia.
    + apply elem_of_seq. apply lookup_lt_Some in Hi. lia.
Qed.

Lemma pick_None ts s :
  pick (exec cfg jobs) ts s = None →
  ∀ t, t ∈ ts → exec cfg jobs t s = None.
Proof.
  induction ts as [|a ts IH]; simpl; intros Hp t Ht.
  - by apply elem_of_nil in Ht.
  - destruct (exec cfg jobs a s) eqn:Ha; [done|].
    apply elem_of_cons in Ht as [->|Ht]; eauto.
Qed.

Lemma pick_Some ts s t :
  pick (exec cfg jobs) ts s = Some t → is_Some (exec cfg jobs t s).
Proof.
  induction ts as [|a ts IH]; simpl; [done|].
  destruct (exec cfg jobs a s) eqn:Ha; [|done].
  intros [= <-]. by rewrite Ha.
Qed.

(** Nothing moves when no candidate does. *)
Lemma pick_stuck s :
  pick (exec cfg jobs) (candidates s) s = None →
  ∀ t, exec cfg jobs t s = None.
Proof.
  intros Hp t. destruct (exec cfg jobs t s) as [s'|] eqn:Ht; [|done].
  rewrite <- Ht. eapply pick_None; [done|]. by eapply exec_candidates.
Qed.

(** Every run can be continued to a state in which nothing moves. *)
Lemma runs_end s :
  ∃ sched s', run cfg jobs sched s = Some s' ∧ ∀ t, exec cfg jobs t s' = None.
Proof.
  remember (rank cfg jobs s) as n eqn:Hn.
  revert s Hn. induction (lt_wf n) as [n _ IH]. intros s ->.
  destruct (pick (exec cfg jobs) (candidates s) s) as [t|] eqn:Hp.
  - destruct (pick_Some _ _ _ Hp) as [s1 Ht].
    destruct (IH (rank cfg jobs s1) (rank_step _ _ _ Ht) s1 eq_refl)
      as (sched & s' & Hrun & Hend).
    exists (t :: sched), s'. by rewrite run_cons, Ht.
  - exists [], s. split; [done|]. by apply pick_stuck.
Qed.

(** X16: with [Workers] zero or negative, [SFTPReaders] positive, fetches
    that succeed and more jobs than [resultsChan] can hold, nothing ever
    receives from [resultsChan]: it is never closed, and the goroutine of
    lines 74-77 never gets past its [readWg.Wait()].  Every run can be
    continued until nothing can move, and whenever nothing can move the call
    has returned, [resultsChan] is full, and a fetch goroutine is blocked in
    its send for good: the goroutines are leaked. *)
Theorem X16_no_workers_leaks_fetch_goroutines :
  Workers cfg ≤ 0 → 0 < SFTPReaders cfg → 0 ≤ BufferSize cfg →
  fetch_succeeds jobs → BufferSize cfg < Z.of_nat (length jobs) →
  ∀ sched w s, run cfg jobs sched (init w) = Some s →
    closes ch_results (hist s) = 0%nat
    ∧ closed (resultsChan s) = false
    ∧ (∃ sched' s', run cfg jobs sched' s = Some s'
                    ∧ ∀ t, exec cfg jobs t s' = None)
    ∧ ((∀ t, exec cfg jobs t s = None) →
       is_Some (returned s)
       ∧ length (buf (resultsChan s)) = Z.to_nat (BufferSize cfg)
       ∧ ∃ i r, readers s !! i = Some (R_send r)).
Proof.
  intros HW HR HB Hok Hmore sched w s Hrun.
  destruct (sentinel_waits _ _ _ HW HR HB Hok Hmore Hrun) as [Hst1 Hst2].
  destruct (run_wf _ _ _ Hrun) as (Hwf & _ & _).
  assert (closed (resultsChan s) = false) as Hopen.
  { rewrite (wf_resultsChan _ _ _ Hwf). by destruct (sentinel s). }
  split_and!; [|done|apply runs_end|].
  { by rewrite (wf_closes _ _ _ Hwf), Hopen. }
  intros Hstuck.
  assert (panicked s = false) as Hnp.
  { destruct (panicked s) eqn:Hp; [|done].
    pose proof (wf_panic _ _ _ Hwf Hp). lia. }
  assert (is_Some (returned s)) as [out Hret].
  { destruct (returned s) eqn:Hret; [by eexists|].
    destruct (progress s Hwf HB Hret) as (t & s' & Ht).
    by rewrite Hstuck in Ht. }
  split; [by eexists|].
  pose proof (returned_past _ _ Hret) as Hpast.
  assert (feeder s = F_exit) as Hfd.
  { destruct (feeder s) as [|rest|] eqn:Hfd; [| |done].
    - apply (wf_feeder _ _ _ Hwf) in Hfd.
      by destruct Hpast as [Hm|(?&?&Hm)]; rewrite Hm in Hfd.
    - destruct (feeder_enabled s rest Hwf Hnp Hfd) as [s' Ht].
      by rewrite Hstuck in Ht. }
  assert (sentinel s = S_wait) as Hst.
  { destruct (sentinel s) eqn:Hst; try done.
    apply (wf_sentinel _ _ _ Hwf) in Hst.
    by destruct Hpast as [Hm|(?&?&Hm)]; rewrite Hm in Hst. }
  assert (readWg s ≠ 0) as Hwg.
  { pose proof (Hstuck T_sentinel) as Ht.
    unfold exec, exec_with, sentinel_step in Ht. rewrite Hnp, Hst in Ht.
    destruct (readWg s =? 0) eqn:Hz; [done|]. lia. }
  assert (pending_reader (main s) = 0) as Hpend.
  { by destruct Hpast as [->|(?&?& ->)]. }
  rewrite (wf_readWg _ _ _ Hwf), Hpend in Hwg.
  destruct (sum_list_with_pos reader_live (readers s)) as (i & r & Hi & Hr);
    [lia|].
  pose proof (Hstuck (T_reader i)) as Ht.
  unfold exec, exec_with, reader_step in Ht. rewrite Hnp, Hi in Ht.
  simpl in Ht.
  pose proof (wf_jobsChan _ _ _ Hwf) as Hjc. rewrite Hfd in Hjc.
  destruct (run_files_closed _ _ _ Hrun) as [_ Hbuf].
  unfold buffered in Hbuf.
  destruct r; simpl in Hr; try lia; unfold chan_range, chan_send, wg_done in Ht;
    repeat (simplify_option_eq; try case_match); simplify_eq/=; try done.
  split; [|by eauto].
  match goal with H : (_ <? _)%nat = false |- _ => apply Nat.ltb_ge in H end.
  unfold resultsCap in *. lia.
Qed.

(** *** Conservation of the jobs *)

(** X17: at every moment of every run, whatever the configuration, each
    input job is in exactly one place: not sent yet, in [jobsChan], held by
    a fetch goroutine, in [resultsChan], held by a processing goroutine, or
    counted once in [transferred] or in [failed].  The counters are the
    numbers of increments as [int32]; for fewer than [2^31] jobs they are
    never negative and their sum never exceeds [len(jobs)], and it reaches
    [len(jobs)] exactly when no job is on its way any more. *)
Theorem X17_jobs_are_conserved :
  ∀ sched w s, run cfg jobs sched (init w) = Some s →
    (in_flight jobs s + adds c_transferred (hist s)
     + adds c_failed (hist s))%nat = length jobs
    ∧ transferred s = wrap32 (Z.of_nat (adds c_transferred (hist s)))
    ∧ failed s = wrap32 (Z.of_nat (adds c_failed (hist s)))
    ∧ (Z.of_nat (length jobs) < 2 ^ 31 →
       0 ≤ transferred s ∧ 0 ≤ failed s
       ∧ transferred s + failed s
         = Z.of_nat (length jobs) - Z.of_nat (in_flight jobs s)).
Proof.
  intros sched w s Hrun.
  destruct (run_wf _ _ _ Hrun) as (_ & (Hn & Ht & Hf) & _).
  split_and!; [done..|]. intros Hlen.
  rewrite Ht, Hf, !wrap32_of_nat by lia. lia.
Qed.
End Proofs.



(** ** The examples *)



Lemma full_env_fetches jobs :
  jobs ⊆ demo_jobs → ∀ pf, fetch_succeeds (E := mockEnv full_client pf) jobs.
Proof.
  intros Hsub pf job w Hin. apply Hsub in Hin.
  repeat (apply elem_of_cons in Hin as [->|Hin]);
    [eexists _, _; split; [vm_compute; reflexivity | done]..|].
  by apply elem_of_nil in Hin.
Qed.



Lemma mockEnv_stateless m pf : stateless (E := mockEnv m pf).
Proof. by repeat split; intros ? [] []. Qed.














Lemma C8_witness :
  run (E := demo_env) demo_cfg demo_jobs demo_sched (init tt) = Some demo_final
  ∧ processed (hist demo_final) ≡ₚ result_of <$> fetched (hist demo_final)
  ∧ ∃ job f data,
      job ∈ demo_jobs
      ∧ mock_Open demo_client (FileJob.RemotePath job) = inl f
      ∧ f = data
      ∧ FileResult.mk "id_3" [x78] = FileResult.mk (FileJob.ID job) data.
Proof.
  split; [vm_compute; reflexivity|].
  destruct (C8_result_is_the_fetched_job (E := demo_env) demo_cfg demo_jobs
              demo_sched tt demo_final) as (Hprov & _ & Hperm);
    [vm_compute; reflexivity|].
  split; [apply Hperm; done|].
  destruct (Hprov (FileResult.mk "id_3" [x78]) None)
    as (job & f & data & w1 & w2 & Hjob & Hopen & Hread & Hr).
  { vm_compute. do 2 right. left. }
  exists job, f, data. split_and!; try done. by simplify_eq/=.
Defined.



(** ** The scenarios of the specification *)

(** Three jobs of which [id_2] is absent from the store: the second job fails
    in [Open], the others are transferred, also over an unbuffered
    [resultsChan]. *)
Example scenario_missing_file :
  TransferFiles (E := demo_env) demo_cfg demo_jobs demo_sched tt = Some (2, 1)
  ∧ TransferFilesMock (E := demo_env) demo_cfg demo_jobs mock_sched tt
    = Some (2, 1)
  ∧ TransferFiles (E := demo_env) unbuffered_cfg demo_jobs unbuffered_sched tt
    = Some (2, 1)
  ∧ T_handoff 0 0 ∈ unbuffered_sched.
Proof.
  split_and!; [vm_compute; reflexivity..|].
  vm_compute. repeat first [by left | right].
Qed.

(** ** The mock client *)

Lemma count_ext {A} (p q : A → bool) (l : list A) :
  (∀ x, x ∈ l → p x = q x) → count p l = count q l.
Proof.
  unfold count. induction l as [|a l IH]; intros Hpq; simpl; [done|].
  rewrite (Hpq a) by left. rewrite IH; [done|].
  intros x Hx. apply Hpq. by right.
Qed.

Lemma bind_ext_in {A B} (f g : A → list B) (l : list A) :
  (∀ x, x ∈ l → f x = g x) → l ≫= f = l ≫= g.
Proof.
  induction l as [|a l IH]; intros Hfg; [done|].
  change ((a :: l) ≫= f) with (f a ++ (l ≫= f)).
  change ((a :: l) ≫= g) with (g a ++ (l ≫= g)).
  rewrite (Hfg a) by left. rewrite IH; [done|].
  intros x Hx. apply Hfg. by right.
Qed.

Lemma mock_job_ok m pf job :
  job_ok (E := mockEnv m pf) tt job = mock_accepts m pf job.
Proof.
  unfold job_ok, mock_accepts, file_ok, data_ok, accepts, result_of.
  simpl. unfold mock_Open.
  by destruct (files m !! FileJob.RemotePath job).
Qed.

Lemma mock_outcome m pf job :
  outcome (E := mockEnv m pf) tt job = stored m job.
Proof.
  unfold outcome, read_outcome, stored, result_of, mock_Open. simpl.
  unfold mock_Open. by destruct (files m !! FileJob.RemotePath job).
Qed.

(** X12: [TransferFilesMock] on the mock client, with a processing function
    without effects.  [Open] yields the bytes stored under the path of the
    job, or the error [file not found] with the path when there are none.
    With both pools non-empty, when the call returns, [processFunc] has
    been called exactly once for each job whose path is stored, on the
    job's ID and the stored bytes; [transferred] is the number of those
    jobs whose result the function accepts and [failed] the number of the
    other jobs, as [int32]. *)
Theorem X12_mock_client_transfers_stored_files
    (m : mockSFTPClient) (pf : FileResult.t → error)
    (cfg : PipelineCfg) (jobs : list FileJob.t) :
  0 < SFTPReaders cfg → 0 < Workers cfg →
  ∀ sched s,
    run_mock (E := mockEnv m pf) cfg jobs sched (init tt) = Some s →
    (∀ job res, EvOpen job res ∈ hist s →
       res = match files m !! FileJob.RemotePath job with
             | Some data => inl data
             | None => inr ("file not found: " +:+ FileJob.RemotePath job)
             end)
    ∧ processed (hist s) ⊆+ jobs ≫= stored m
    ∧ ∀ tr fl : Z, returned s = Some (tr, fl) →
        processed (hist s) ≡ₚ jobs ≫= stored m
        ∧ tr = wrap32 (Z.of_nat (count (mock_accepts m pf) jobs))
        ∧ fl = wrap32 (Z.of_nat (length jobs
                                 - count (mock_accepts m pf) jobs)).
Proof.
  intros HR HW sched s Hrun.
  destruct (run_mock_backward _ _ _ _ _ Hrun) as (sched0 & Hrun0).
  pose proof (mockEnv_stateless m pf) as Hst.
  assert (jobs ≫= outcome (E := mockEnv m pf) tt = jobs ≫= stored m)
    as Hout.
  { apply bind_ext_in. intros job _. apply mock_outcome. }
  assert (count (job_ok (E := mockEnv m pf) tt) jobs
          = count (mock_accepts m pf) jobs) as Hcount.
  { apply count_ext. intros job _. apply mock_job_ok. }
  split_and!.
  - intros job res Hin.
    pose proof (run_sound _ _ _ _ _ Hrun0) as Hsound.
    rewrite Forall_forall in Hsound. destruct (Hsound _ Hin) as [[] <-].
    done.
  - rewrite <- Hout. by eapply run_processed.
  - intros tr fl Hret.
    destruct (returned_counts _ _ _ _ _ _ _ HR HW Hrun0 Hret) as (Hq & _).
    destruct (returned_stateless _ _ _ _ _ _ _ Hst HR HW Hrun0 Hret)
      as [-> ->].
    rewrite Hcount. split_and!; [|done..].
    rewrite <- Hout. by eapply run_processed.
Qed.

(** ** The set-up of the benchmarks *)

Lemma length_append (s1 s2 : string) :
  String.length (s1 +:+ s2) = (String.length s1 + String.length s2)%nat.
Proof. induction s1 as [|a s1 IH]; simpl; [done|]. by rewrite IH. Qed.

Lemma append_inj_r (s1 s2 t : string) : s1 +:+ t = s2 +:+ t → s1 = s2.
Proof.
  revert s2. induction s1 as [|a s1 IH]; intros [|b s2] Heq; simpl in *.
  - done.
  - apply (f_equal String.length) in Heq. simpl in Heq.
    rewrite !length_append in Heq. simpl in Heq. lia.
  - apply (f_equal String.length) in Heq. simpl in Heq.
    rewrite !length_append in Heq. simpl in Heq. lia.
  - injection Heq as -> Heq. f_equal. by apply IH.
Qed.

Local Instance file_path_inj : Inj (=) (=) file_path.
Proof.
  intros i j Heq. unfold file_path in Heq.
  apply (inj (String.app "/remote/file_")) in Heq.
  apply append_inj_r in Heq. by apply (inj pretty).
Qed.

Local Instance file_id_inj : Inj (=) (=) file_id.
Proof.
  intros i j Heq. unfold file_id in Heq.
  apply (inj (String.app "id_")) in Heq. by apply (inj pretty).
Qed.

Lemma mjoin_replicate {A} (n : nat) (x : A) :
  mjoin (replicate n [x]) = replicate n x.
Proof. induction n as [|n IH]; simpl; [done|]. by rewrite IH. Qed.

Lemma Repeat_x (fileSize : Z) :
  0 ≤ fileSize →
  Repeat [x78] fileSize = Some (replicate (Z.to_nat fileSize) x78).
Proof.
  intros Hs. unfold Repeat. destruct (fileSize <? 0) eqn:Hlt; [lia|].
  by rewrite mjoin_replicate.
Qed.

(** The state of the set-up loop after [k] of its [n] iterations. *)
Lemma setup_loop (fileSize : Z) (n k : nat) :
  0 ≤ fileSize → (k ≤ n)%nat →
  foldl (λ st i, st ≫= setup_file fileSize i)
    (Some ({| files := ∅ |}, replicate n (FileJob.mk "" "")))
    (seqZ 0 (Z.of_nat k))
  = Some ({| files :=
               list_to_map
                 ((λ i, (file_path i, replicate (Z.to_nat fileSize) x78))
                    <$> reverse (seqZ 0 (Z.of_nat k))) |},
          ((λ i, FileJob.mk (file_path i) (file_id i))
             <$> seqZ 0 (Z.of_nat k))
          ++ replicate (n - k) (FileJob.mk "" "")).
Proof.
  intros Hs. induction k as [|k IH]; intros Hk.
  - simpl. by rewrite Nat.sub_0_r.
  - rewrite seqZ_S, foldl_app, IH by lia. simpl.
    unfold setup_file. rewrite Repeat_x by done. simpl.
    rewrite reverse_snoc, fmap_cons, fmap_app. simpl.
    rewrite Z.add_0_l, Nat2Z.id. do 2 f_equal.
    rewrite insert_app_r_alt by (by rewrite length_fmap, length_seqZ; lia).
    rewrite length_fmap, length_seqZ, Nat2Z.id, Nat.sub_diag.
    replace (n - k)%nat with (S (n - S k)) by lia. simpl.
    by rewrite <- (assoc_L (++)).
Qed.

(** What the set-up yields for non-negative sizes. *)
Lemma setup_Some (numFiles fileSize : Z) :
  0 ≤ numFiles → 0 ≤ fileSize →
  ∃ m jobs,
    setup numFiles fileSize = Some (m, jobs)
    ∧ jobs = (λ i, FileJob.mk (file_path i) (file_id i))
               <$> seqZ 0 numFiles
    ∧ NoDup (FileJob.RemotePath <$> jobs)
    ∧ NoDup (FileJob.ID <$> jobs)
    ∧ size (files m) = Z.to_nat numFiles
    ∧ ∀ path,
        files m !! path
        = if decide (path ∈ FileJob.RemotePath <$> jobs)
          then Some (replicate (Z.to_nat fileSize) x78)
          else None.
Proof.
  intros Hn Hs.
  set (data := replicate (Z.to_nat fileSize) x78).
  set (entry := λ i : Z, (file_path i, data)).
  set (job := λ i : Z, FileJob.mk (file_path i) (file_id i)).
  assert (NoDup (file_path <$> seqZ 0 numFiles)) as Hpaths.
  { apply (NoDup_fmap_2 _), NoDup_seqZ. }
  assert (NoDup ((entry <$> reverse (seqZ 0 numFiles)).*1)) as Hkeys.
  { rewrite reverse_Permutation, <- list_fmap_compose. exact Hpaths. }
  exists {| files := list_to_map (entry <$> reverse (seqZ 0 numFiles)) |},
    (job <$> seqZ 0 numFiles).
  split_and!.
  - unfold setup, make_jobs. destruct (numFiles <? 0) eqn:Hlt; [lia|].
    simpl. rewrite <- (Z2Nat.id numFiles) at 2 by done.
    rewrite (setup_loop fileSize (Z.to_nat numFiles) (Z.to_nat numFiles))
      by done.
    rewrite Nat.sub_diag, app_nil_r, Z2Nat.id by done. done.
  - done.
  - by rewrite <- list_fmap_compose.
  - rewrite <- list_fmap_compose.
    apply (NoDup_fmap_2 _), NoDup_seqZ.
  - simpl. rewrite map_size_list_to_map by done.
    by rewrite length_fmap, length_reverse, length_seqZ.
  - intros path. simpl. rewrite <- list_fmap_compose.
    change (FileJob.RemotePath ∘ job) with file_path.
    destruct (decide (path ∈ file_path <$> seqZ 0 numFiles)) as [Hin|Hin].
    + apply list_elem_of_fmap in Hin as (i & -> & Hi).
      apply elem_of_list_to_map_1; [done|].
      apply list_elem_of_fmap. exists i. split; [done|].
      by apply elem_of_reverse.
    + apply not_elem_of_list_to_map_1. intros Hk. apply Hin.
      rewrite reverse_Permutation, <- list_fmap_compose in Hk.
      exact Hk.
Qed.

(** X13: the set-up of the benchmarks.  For non-negative sizes it ends
    without panic with one job for each [i] below [numFiles], in order,
    with the path [/remote/file_i.bin] and the ID [id_i]; the paths are
    pairwise distinct and so are the IDs, and the mock client stores exactly
    [numFiles] files: [fileSize] bytes [x] under the path of each job, and
    nothing under any other path.  It panics for a negative [numFiles], in
    [make], and for a negative [fileSize] when there is a file to make, in
    [bytes.Repeat]. *)
Theorem X13_setup_gives_each_job_its_file (numFiles fileSize : Z) :
  (numFiles < 0 ∨ 0 < numFiles ∧ fileSize < 0 →
   setup numFiles fileSize = None)
  ∧ (0 ≤ numFiles → 0 ≤ fileSize →
     ∃ m jobs,
       setup numFiles fileSize = Some (m, jobs)
       ∧ jobs = (λ i, FileJob.mk (file_path i) (file_id i))
                  <$> seqZ 0 numFiles
       ∧ NoDup (FileJob.RemotePath <$> jobs)
       ∧ NoDup (FileJob.ID <$> jobs)
       ∧ size (files m) = Z.to_nat numFiles
       ∧ ∀ path,
           files m !! path
           = if decide (path ∈ FileJob.RemotePath <$> jobs)
             then Some (replicate (Z.to_nat fileSize) x78)
             else None).
Proof.
  split; [|apply setup_Some].
  intros [Hn|[Hn Hs]]; unfold setup, make_jobs.
  - by destruct (numFiles <? 0) eqn:Hlt; [|lia].
  - destruct (numFiles <? 0) eqn:Hlt; [done|]. simpl.
    rewrite seqZ_cons by done. simpl. unfold setup_file at 2, Repeat.
    destruct (fileSize <? 0) eqn:Hlt'; [|lia]. simpl.
    generalize (seqZ (Z.succ 0) (Z.pred numFiles)).
    intros l. by induction l.
Qed.

(** ** The benchmarks *)

(** What [TransferFilesMock] returns on the mock client. *)
Lemma TransferFilesMock_mock m pf cfg jobs sched out :
  0 < SFTPReaders cfg → 0 < Workers cfg →
  TransferFilesMock (E := mockEnv m pf) cfg jobs sched tt = Some out →
  out = (wrap32 (Z.of_nat (count (mock_accepts m pf) jobs)),
         wrap32 (Z.of_nat (length jobs - count (mock_accepts m pf) jobs))).
Proof.
  intros HR HW Hout. unfold TransferFilesMock in Hout.
  destruct (run_mock cfg jobs sched (init tt)) as [s|] eqn:Hrun; [|done].
  simpl in Hout. destruct out as [tr fl].
  destruct (run_mock_backward _ _ _ _ _ Hrun) as (sched0 & Hrun0).
  destruct (returned_stateless _ _ _ _ _ _ _ (mockEnv_stateless m pf)
              HR HW Hrun0 Hout) as [-> ->].
  rewrite (count_ext _ (mock_accepts m pf)); [done|].
  intros job _. apply mock_job_ok.
Qed.

Lemma count_all {A} (p : A → bool) (l : list A) :
  (∀ x, x ∈ l → p x = true) → count p l = length l.
Proof.
  unfold count. induction l as [|a l IH]; intros Hp; simpl; [done|].
  rewrite (Hp a) by left. rewrite IH; [done|].
  intros x Hx. apply Hp. by right.
Qed.

Lemma count_none {A} (p : A → bool) (l : list A) :
  (∀ x, x ∈ l → p x = false) → count p l = 0%nat.
Proof.
  unfold count. induction l as [|a l IH]; intros Hp; simpl; [done|].
  rewrite (Hp a) by left. rewrite IH; [done|].
  intros x Hx. apply Hp. by right.
Qed.

(** The files of the set-up are accepted by a processing function that
    rejects empty data only, unless they are empty. *)
Lemma setup_accepts (numFiles fileSize : Z) m jobs
    (pf : FileResult.t → error) :
  0 ≤ numFiles → 0 ≤ fileSize →
  (∀ r, pf r = None ↔ FileResult.Data r ≠ []) →
  setup numFiles fileSize = Some (m, jobs) →
  Z.of_nat (length jobs) = numFiles
  ∧ (0 < fileSize → count (mock_accepts m pf) jobs = length jobs)
  ∧ (fileSize = 0 → count (mock_accepts m pf) jobs = 0%nat).
Proof.
  intros Hn Hs Hpf Hsetup.
  destruct (setup_Some numFiles fileSize Hn Hs)
    as (m' & jobs' & Hsetup' & Hjobs & _ & _ & _ & Hfiles).
  rewrite Hsetup in Hsetup'. injection Hsetup' as <- <-. subst jobs.
  set (js := (λ i, FileJob.mk (file_path i) (file_id i))
               <$> seqZ 0 numFiles) in *.
  assert (∀ job, job ∈ js →
            mock_accepts m pf job
            = if decide (fileSize = 0) then false else true) as Hacc.
  { intros job Hin. unfold mock_accepts. rewrite Hfiles.
    rewrite decide_True by (by apply list_elem_of_fmap_2).
    destruct (pf _) as [e|] eqn:Hr.
    - destruct (decide (fileSize = 0)) as [->|Hne]; [done|].
      assert (pf {| FileResult.ID := FileJob.ID job;
                    FileResult.Data := replicate (Z.to_nat fileSize) x78 |}
              = None) as Hok; [|congruence].
      apply Hpf. simpl. destruct (Z.to_nat fileSize) eqn:Hz; [lia|done].
    - apply Hpf in Hr. simpl in Hr.
      destruct (decide (fileSize = 0)) as [->|Hne]; done. }
  split_and!.
  - unfold js. rewrite length_fmap, length_seqZ. lia.
  - intros Hpos. apply count_all. intros job Hin.
    rewrite Hacc by done. by rewrite decide_False by lia.
  - intros ->. apply count_none. intros job Hin. by rewrite Hacc.
Qed.


Lemma nonempty_processFunc_configs_spec r :
  nonempty_processFunc_configs r = None ↔ FileResult.Data r ≠ [].
Proof.
  unfold nonempty_processFunc_configs. by destruct (FileResult.Data r).
Qed.

(** A schedule that takes a call of [TransferFilesMock] to its return. *)
Lemma TransferFilesMock_sched (E : Env unit (list byte)) cfg jobs :
  0 ≤ BufferSize cfg →
  ∃ sched out, TransferFilesMock cfg jobs sched tt = Some out.
Proof.
  intros HB.
  destruct (TransferFilesMock_returns cfg jobs [] tt (init tt) HB eq_refl)
    as (sched & out & Hout).
  eauto.
Qed.


Lemma configs_loop_pass cfg m jobs (numFiles : Z) :
  0 ≤ BufferSize cfg →
  (∀ sched out,
     TransferFilesMock (E := mockEnv m nonempty_processFunc_configs)
       cfg jobs sched tt = Some out →
     out = (wrap32 numFiles, 0)) →
  (∀ scheds, configs_loop cfg m jobs numFiles scheds = None
             ∨ configs_loop cfg m jobs numFiles scheds = Some Pass)
  ∧ ∀ N : nat, ∃ scheds,
      length scheds = N
      ∧ configs_loop cfg m jobs numFiles scheds = Some Pass.
Proof.
  intros HB Hout.
  assert (∀ sched scheds out,
            TransferFilesMock (E := mockEnv m nonempty_processFunc_configs)
              cfg jobs sched tt = Some out →
            configs_loop cfg m jobs numFiles (sched :: scheds)
            = configs_loop cfg m jobs numFiles scheds) as Hstep.
  { intros sched scheds out Hs. simpl. rewrite Hs. simpl.
    rewrite (Hout _ _ Hs). by rewrite Z.eqb_refl. }
  split.
  - induction scheds as [|sched scheds IH]; [by right|].
    destruct (TransferFilesMock (E := mockEnv m nonempty_processFunc_configs)
                cfg jobs sched tt) as [out|] eqn:Hs.
    + by rewrite (Hstep _ _ _ Hs).
    + left. simpl. by rewrite Hs.
  - destruct (TransferFilesMock_sched
                (mockEnv m nonempty_processFunc_configs) cfg jobs HB)
      as (sched & out & Hs).
    intros N. exists (replicate N sched). split; [apply length_replicate|].
    induction N as [|N IH]; [done|]. simpl replicate.
    by rewrite (Hstep _ _ _ Hs).
Qed.

(** What a call returns on the files of the set-up. *)
Lemma setup_transfer (numFiles fileSize : Z) m jobs cfg
    (pf : FileResult.t → error) sched out :
  0 ≤ numFiles → 0 ≤ fileSize →
  0 < SFTPReaders cfg → 0 < Workers cfg →
  (∀ r, pf r = None ↔ FileResult.Data r ≠ []) →
  setup numFiles fileSize = Some (m, jobs) →
  TransferFilesMock (E := mockEnv m pf) cfg jobs sched tt = Some out →
  (0 < fileSize → out = (wrap32 numFiles, 0))
  ∧ (fileSize = 0 → out = (0, wrap32 numFiles)).
Proof.
  intros Hn Hs HR HW Hpf Hsetup Hout.
  destruct (setup_accepts _ _ _ _ pf Hn Hs Hpf Hsetup) as (Hlen & Hall & Hnone).
  rewrite (TransferFilesMock_mock _ _ _ _ _ _ HR HW Hout).
  split.
  - intros Hpos. rewrite (Hall Hpos), Nat.sub_diag, Hlen. done.
  - intros Hz. rewrite (Hnone Hz), Nat.sub_0_r, Hlen. done.
Qed.


(** The sub-benchmarks of a list of configurations with non-empty pools. *)
Lemma sub_benchmarks_pass m jobs (numFiles : Z)
    (cs : list (string * PipelineCfg)) :
  Forall (λ c, 0 ≤ BufferSize c.2
               ∧ ∀ sched out,
                   TransferFilesMock
                     (E := mockEnv m nonempty_processFunc_configs)
                     c.2 jobs sched tt = Some out →
                   out = (wrap32 numFiles, 0)) cs →
  (∀ scheds,
     (zip_with (λ c ss, (c.1, configs_loop c.2 m jobs numFiles ss))
        cs scheds).*1 = take (length scheds) cs.*1
     ∧ Forall (λ r, r.2 = None ∨ r.2 = Some Pass)
         (zip_with (λ c ss, (c.1, configs_loop c.2 m jobs numFiles ss))
            cs scheds))
  ∧ ∀ N : nat, ∃ scheds,
      Forall (λ ss, length ss = N) scheds
      ∧ zip_with (λ c ss, (c.1, configs_loop c.2 m jobs numFiles ss))
          cs scheds
        = (λ c, (c.1, Some Pass)) <$> cs.
Proof.
  induction 1 as [|c cs [HB Hout] _ [IH1 IH2]].
  - split; [by intros [|]|]. intros N. by exists [].
  - destruct (configs_loop_pass c.2 m jobs numFiles HB Hout) as [H1 H2].
    split.
    + intros [|ss scheds]; [done|].
      destruct (IH1 scheds) as [Heq Hall]. split.
      * change (c.1 :: (zip_with
                          (λ c ss, (c.1, configs_loop c.2 m jobs numFiles ss))
                          cs scheds).*1
                = c.1 :: take (length scheds) cs.*1).
        by rewrite Heq.
      * constructor; [apply H1 | done].
    + intros N. destruct (H2 N) as (ss & Hlen & Hss).
      destruct (IH2 N) as (scheds & Hlens & Hscheds).
      exists (ss :: scheds). split; [by constructor|].
      simpl. by rewrite Hss, Hscheds.
Qed.

(** X15: no sub-benchmark of [BenchmarkTransferFilesVariousConfigs] stops
    in [b.Fatalf].  The set-up does not panic, and under each of the four
    configurations every call of [TransferFilesMock] returns
    [transferred = 1000] and [failed = 0] whatever the schedule, so that each
    sub-benchmark that is run, in the order of the list of configurations,
    runs through, for every [b.N]. *)
Theorem X15_config_benchmarks_never_fail :
  (∃ mockClient jobs,
     setup 1000 (1024 * 100) = Some (mockClient, jobs)
     ∧ Forall (λ c, ∀ sched,
                 TransferFilesMock
                   (E := mockEnv mockClient nonempty_processFunc_configs)
                   c.2 jobs sched tt = None
                 ∨ TransferFilesMock
                     (E := mockEnv mockClient nonempty_processFunc_configs)
                     c.2 jobs sched tt = Some (1000, 0)) configs)
  ∧ (∀ scheds, ∃ results,
     BenchmarkTransferFilesVariousConfigs scheds = Some results
     ∧ results.*1 = take (length scheds) configs.*1
     ∧ Forall (λ r, r.2 = None ∨ r.2 = Some Pass) results)
  ∧ ∀ N : nat, ∃ scheds,
      Forall (λ ss, length ss = N) scheds
      ∧ BenchmarkTransferFilesVariousConfigs scheds
        = Some ((λ c, (c.1, Some Pass)) <$> configs).
Proof.
  assert (wrap32 1000 = 1000) as Hw by (apply wrap32_small; lia).
  destruct (setup_Some 1000 (1024 * 100) ltac:(lia) ltac:(lia))
    as (m & jobs & Hsetup & _).
  assert (Forall (λ c, 0 ≤ BufferSize c.2
                       ∧ ∀ sched out,
                           TransferFilesMock
                             (E := mockEnv m nonempty_processFunc_configs)
                             c.2 jobs sched tt = Some out →
                           out = (wrap32 1000, 0)) configs) as Hcs.
  { unfold configs.
    repeat (constructor; [split; [simpl; lia|]; intros sched out Hout;
      refine (proj1 (setup_transfer 1000 (1024 * 100) m jobs _ _ sched out
                       _ _ _ _ nonempty_processFunc_configs_spec
                       Hsetup Hout) _); simpl; lia|]).
    constructor. }
  destruct (sub_benchmarks_pass m jobs 1000 configs Hcs) as [H1 H2].
  unfold BenchmarkTransferFilesVariousConfigs. rewrite Hsetup.
  split_and!.
  - exists m, jobs. split; [done|].
    eapply Forall_impl; [exact Hcs|]. intros c [_ Hout] sched.
    destruct (TransferFilesMock c.2 jobs sched tt) as [out|] eqn:Hs;
      [|by left].
    right. by rewrite (Hout _ _ Hs), Hw.
  - intros scheds. eexists. split; [reflexivity|]. apply H1.
  - intros N. destruct (H2 N) as (scheds & Hlens & Hscheds).
    exists scheds. split; [done|]. cbn [mbind option_bind fst snd].
    by rewrite Hscheds.
Qed.

(** ** The further properties on the examples *)

Lemma demo_run :
  run (E := demo_env) demo_cfg demo_jobs demo_sched (init tt)
  = Some demo_final.
Proof. vm_compute. reflexivity. Defined.


Lemma X2_witness :
  BufferSize negative_cfg < 0
  ∧ TransferFiles (E := demo_env) negative_cfg demo_jobs [T_main] tt = None
  ∧ run (E := demo_env) negative_cfg demo_jobs [T_main] (init tt)
    = Some (panic (init tt)).
Proof.
  assert (BufferSize negative_cfg < 0) as HB by (simpl; lia).
  destruct (X2_negative_buffer_panics (E := demo_env)
              negative_cfg demo_jobs HB) as [Hnone _].
  split_and!; [exact HB | apply Hnone | vm_compute; reflexivity].
Defined.

Lemma X3_witness :
  run (E := demo_env) demo_cfg demo_jobs demo_sched (init tt)
  = Some demo_final
  ∧ feeder demo_final = F_exit
  ∧ closes ch_jobs (hist demo_final) = 1%nat.
Proof.
  split; [exact demo_run|]. split; [reflexivity|].
  destruct (X3_feeder_never_blocks (E := demo_env) demo_cfg demo_jobs
              ltac:(done) demo_sched tt demo_final demo_run)
    as (_ & _ & _ & _ & _ & Hret).
  apply Hret; [done..|]. by eexists.
Defined.

Lemma X4_witness :
  run (E := demo_env) demo_cfg demo_jobs demo_sched (init tt)
  = Some demo_final
  ∧ length (opened_files (hist demo_final)) = 2%nat
  ∧ closed_files (hist demo_final) ≡ₚ (opened_files (hist demo_final)).*2.
Proof.
  split; [exact demo_run|]. split; [reflexivity|].
  destruct (X4_every_opened_file_is_closed_once (E := demo_env)
              demo_cfg demo_jobs demo_sched tt demo_final demo_run)
    as (_ & _ & _ & _ & Hret).
  apply Hret; [done..|]. by eexists.
Defined.

Lemma X5_witness :
  run (E := demo_env) demo_cfg demo_jobs demo_sched (init tt)
  = Some demo_final
  ∧ (length (fetched (hist demo_final))
     ≤ length (processed (hist demo_final)) + 2 + 1 + 2)%nat.
Proof.
  split; [exact demo_run|].
  destruct (X5_results_in_memory_bounded (E := demo_env)
              demo_cfg demo_jobs demo_sched tt demo_final demo_run)
    as [_ Hmem].
  exact Hmem.
Defined.






Lemma mock_run :
  run_mock (E := demo_env) demo_cfg demo_jobs mock_sched (init tt)
  = Some mock_final.
Proof. vm_compute. reflexivity. Defined.



Lemma X12_witness :
  run_mock (E := demo_env) demo_cfg demo_jobs mock_sched (init tt)
  = Some mock_final
  ∧ returned mock_final = Some (2, 1)
  ∧ processed (hist mock_final)
    ≡ₚ [FileResult.mk "id_1" [x78; x78]; FileResult.mk "id_3" [x78]]
  ∧ 2 = wrap32 (Z.of_nat
                  (count (mock_accepts demo_client nonempty_processFunc)
                     demo_jobs)).
Proof.
  split; [exact mock_run|]. split; [reflexivity|].
  destruct (X12_mock_client_transfers_stored_files demo_client
              nonempty_processFunc demo_cfg demo_jobs
              ltac:(done) ltac:(done) mock_sched mock_final mock_run)
    as (_ & _ & Hret).
  destruct (Hret 2 1 eq_refl) as (Hp & Ht & _).
  split; [exact Hp | exact Ht].
Defined.

Lemma X13_witness :
  ∃ m jobs,
    setup 3 2 = Some (m, jobs)
    ∧ jobs = [FileJob.mk "/remote/file_0.bin" "id_0";
              FileJob.mk "/remote/file_1.bin" "id_1";
              FileJob.mk "/remote/file_2.bin" "id_2"]
    ∧ size (files m) = 3%nat
    ∧ files m !! "/remote/file_1.bin" = Some [x78; x78].
Proof.
  destruct (X13_setup_gives_each_job_its_file 3 2) as [_ Hsetup].
  destruct (Hsetup ltac:(lia) ltac:(lia))
    as (m & jobs & Hs & Hjobs & _ & _ & Hsize & Hfiles).
  exists m, jobs. split_and!; [exact Hs | exact Hjobs | exact Hsize |].
  rewrite Hfiles, Hjobs. reflexivity.
Defined.


Lemma X16_witness :
  run (E := full_env) no_workers_cfg demo_jobs leak_sched (init tt)
  = Some leak_final
  ∧ (∀ t, exec (E := full_env) no_workers_cfg demo_jobs t leak_final = None)
  ∧ returned leak_final = Some (0, 0)
  ∧ buf (resultsChan leak_final) = [FileResult.mk "id_1" [x78; x78]]
  ∧ ∃ i r, readers leak_final !! i = Some (R_send r).
Proof.
  assert (run (E := full_env) no_workers_cfg demo_jobs leak_sched (init tt)
          = Some leak_final) as Hrun by (vm_compute; reflexivity).
  assert (∀ t, exec (E := full_env) no_workers_cfg demo_jobs t leak_final
               = None) as Hstuck.
  { apply pick_stuck. vm_compute. reflexivity. }
  split; [exact Hrun|]. split; [exact Hstuck|].
  split; [reflexivity|]. split; [reflexivity|].
  destruct (X16_no_workers_leaks_fetch_goroutines (E := full_env)
              no_workers_cfg demo_jobs ltac:(simpl; lia) ltac:(done)
              ltac:(done) (full_env_fetches demo_jobs (λ _ H, H) accept_all)
              ltac:(simpl; lia) leak_sched tt leak_final Hrun)
    as (_ & _ & _ & Hleak).
  destruct (Hleak Hstuck) as (_ & _ & Hblocked). exact Hblocked.
Defined.

Lemma X17_witness :
  run (E := full_env) no_workers_cfg demo_jobs leak_sched (init tt)
  = Some leak_final
  ∧ in_flight demo_jobs leak_final = 3%nat
  ∧ transferred leak_final + failed leak_final = 3 - 3.
Proof.
  assert (run (E := full_env) no_workers_cfg demo_jobs leak_sched (init tt)
          = Some leak_final) as Hrun by (vm_compute; reflexivity).
  split; [exact Hrun|]. split; [reflexivity|].
  destruct (X17_jobs_are_conserved (E := full_env) no_workers_cfg demo_jobs
              leak_sched tt leak_final Hrun) as (_ & _ & _ & Hsum).
  destruct Hsum as (_ & _ & Hsum); [simpl; lia|]. exact Hsum.
Defined.
